(** * Task Manager backend: the REST handlers over the Store and the cache

    A shallow embedding of [services/backend/src/index.js] (the Express
    handlers and the three cache helpers) together with the [tasks] table of
    the database initialisation script (columns, defaults, sequence and the
    [update_updated_at_column] trigger).

    Handlers are written in a small state-and-exception monad.  The state
    holds the table, the Redis key space, the [redisConnected] flag, the
    clock, a schedule telling which of the coming driver calls reject, and
    the trace of what the handler did (statements, Redis commands, console
    output, the response).  One handler runs from its first statement to its
    response without interleaving with another request.

    The file has three parts: the model (values, table and statements, key
    space, monad, helpers, routes), the vocabulary of the statements, and
    the properties with the runs that illustrate them. *)

From Stdlib Require Import Ascii.
From stdpp Require Import base strings gmap list sorting pretty.

Local Open Scope string_scope.
Local Open Scope list_scope.
Local Open Scope Z_scope.

(** ** JavaScript values of a request body *)

(** A field of [req.body] after [bodyParser.json()]: a JSON scalar, or an
    array/object.  Arrays and objects are kept as the text between the braces
    of what the Postgres driver sends for them (an array literal [{a,b}] or
    the JSON text of the object).  An absent field reads as [undefined] and
    is [None] in [option jsval]. *)
Inductive jsval :=
| JNull
| JBool (b : bool)
| JNum (n : Z)
| JStr (s : string)
| JComposite (inner : string).

(** [!!v] *)
Definition truthy (v : option jsval) : bool :=
  match v with
  | None => false
  | Some JNull => false
  | Some (JBool b) => b
  | Some (JNum n) => negb (Z.eqb n 0)
  | Some (JStr s) => negb (String.eqb s "")
  | Some (JComposite _) => true
  end.

(** [a || b] with [b] a value *)
Definition js_or (a : option jsval) (b : jsval) : jsval :=
  match a with
  | Some v => if truthy a then v else b
  | None => b
  end.

(** [v !== undefined] *)
Definition defined (v : option jsval) : bool :=
  match v with Some _ => true | None => false end.

Record Body := {
  b_title : option jsval;
  b_description : option jsval;
  b_completed : option jsval
}.

(** ** The Store: table [tasks] *)

(** The text of a query parameter as the driver sends it; [None] is SQL
    NULL ([null] and [undefined] are both sent as NULL). *)
Definition prepareValue (v : option jsval) : option string :=
  match v with
  | None | Some JNull => None
  | Some (JBool true) => Some "true"
  | Some (JBool false) => Some "false"
  | Some (JNum n) => Some (pretty n)
  | Some (JStr s) => Some s
  | Some (JComposite inner) => Some ("{" +:+ inner +:+ "}")
  end.

(** The input functions of the column types, which turn the text of a
    parameter into a value of the column or reject it.  They belong to the
    database server, not to this repository, and are left open. *)
Class PgInput := {
  int4_in : string → option Z;        (* id SERIAL *)
  varchar255_in : string → option string;  (* title VARCHAR(255) *)
  text_in : string → option string;   (* description TEXT *)
  bool_in : string → option bool      (* completed BOOLEAN *)
}.

(** Columns of a row other than its primary key.  [description] and
    [completed] carry no NOT NULL and may be NULL ([None]). *)
Record Row := {
  title : string;
  description : option string;
  completed : option bool;
  created_at : Z;
  updated_at : Z
}.

(** A row as a statement returns it: [id] and the other columns. *)
Definition Task : Type := Z * Row.

Record Store := {
  tasks : gmap Z Row;
  tasks_id_seq : Z      (* next value of the sequence behind [id SERIAL] *)
}.

Definition int4_max : Z := 2147483647.

Definition set_title (s : string) (r : Row) : Row :=
  {| title := s; description := description r; completed := completed r;
     created_at := created_at r; updated_at := updated_at r |}.
Definition set_description (d : option string) (r : Row) : Row :=
  {| title := title r; description := d; completed := completed r;
     created_at := created_at r; updated_at := updated_at r |}.
Definition set_completed (c : option bool) (r : Row) : Row :=
  {| title := title r; description := description r; completed := c;
     created_at := created_at r; updated_at := updated_at r |}.
Definition set_updated_at (t : Z) (r : Row) : Row :=
  {| title := title r; description := description r; completed := completed r;
     created_at := created_at r; updated_at := t |}.

(** The trigger function: [NEW.updated_at = CURRENT_TIMESTAMP; RETURN NEW]. *)
Definition update_updated_at_column (now : Z) (NEW : Row) : Row :=
  set_updated_at now NEW.

(** The eight sample rows of the initialisation script, inserted in one
    statement at time [t0]. *)
Definition sample_titles : list (string * string) :=
  [ ("Dockeriser le frontend", "Créer un Dockerfile multi-stage pour React/Vite");
    ("Dockeriser le backend", "Créer un Dockerfile multi-stage pour Node.js/Express");
    ("Créer les scripts bash", "build.sh, start.sh, stop.sh, backup-db.sh, restore-db.sh");
    ("Configurer les réseaux", "Créer frontend et backend (isolé)");
    ("Configurer les volumes", "postgres-data et redis-data");
    ("Scanner avec Trivy", "Vérifier les vulnérabilités des images");
    ("Documenter le projet", "README.md, ARCHITECTURE.md, SECURITY.md, etc.");
    ("Préparer la soutenance", "Démo live et présentation de 15 minutes") ].

Definition sample_row (t0 : Z) (td : string * string) : Row :=
  {| title := td.1; description := Some td.2; completed := Some false;
     created_at := t0; updated_at := t0 |}.

Definition init_store (t0 : Z) : Store :=
  {| tasks := list_to_map (zip (seqZ 1 8) (sample_row t0 <$> sample_titles));
     tasks_id_seq := 9 |}.

(** *** Statements *)

Inductive Column := ColTitle | ColDescription | ColCompleted.

(** One entry of the [updates] array of the PUT handler: [col = $n], or
    [updated_at = NOW()]. *)
Inductive SetClause :=
| SetParam (col : Column) (placeholder : nat)
| SetNow.

(** The statements the handlers send, with their parameter arrays. *)
Inductive Stmt :=
| QSelectNow
| QSelectAll
| QSelectById (values : list (option jsval))
| QSelectIdCheck (values : list (option jsval))
| QInsert (values : list (option jsval))
| QUpdate (updates : list SetClause) (where_placeholder : nat)
          (values : list (option jsval))
| QDelete (values : list (option jsval))
| QStats.

(** Result of a statement: an error message of the server, or the rows and
    the table afterwards. *)
Definition PgRes (A : Type) : Type := string + (A * Store).

(** [$n] of a parameter array; [None] when the array is too short. *)
Definition placeholder (values : list (option jsval)) (n : nat)
  : option (option jsval) :=
  match n with
  | O => None
  | S k => values !! k
  end.

(** [ORDER BY created_at DESC] *)
Definition created_desc (a b : Task) : Prop := created_at b.2 ≤ created_at a.2.

Global Instance created_desc_dec a b : Decision (created_desc a b).
Proof. unfold created_desc. apply _. Defined.

Section statements.
Context `{PgInput}.

(** The [id] a [WHERE id = $n] compares with: NULL matches no row, text
    that is no integer is an error. *)
Definition where_id (values : list (option jsval)) (n : nat)
  : string + option Z :=
  match placeholder values n with
  | None => inl "there is no parameter"
  | Some v =>
      match prepareValue v with
      | None => inr None
      | Some s =>
          match int4_in s with
          | Some k => inr (Some k)
          | None => inl "invalid input syntax for type integer"
          end
      end
  end.

Definition rows_with_id (st : Store) (k : option Z) : list Task :=
  match k with
  | Some k => match tasks st !! k with Some r => [(k, r)] | None => [] end
  | None => []
  end.

(** [SELECT ... FROM tasks ORDER BY created_at DESC] *)
Definition select_all (st : Store) : list Task :=
  merge_sort created_desc (map_to_list (tasks st)).

(** [SELECT ... FROM tasks WHERE id = $1] *)
Definition select_by_id (values : list (option jsval)) (st : Store)
  : PgRes (list Task) :=
  match where_id values 1 with
  | inl e => inl e
  | inr k => inr (rows_with_id st k, st)
  end.

(** [SELECT id FROM tasks WHERE id = $1] *)
Definition select_id_check (values : list (option jsval)) (st : Store)
  : PgRes (list Z) :=
  match where_id values 1 with
  | inl e => inl e
  | inr k => inr (fst <$> rows_with_id st k, st)
  end.

(** A parameter assigned to [title VARCHAR(255) NOT NULL]. *)
Definition title_in (v : option jsval) : string + string :=
  match prepareValue v with
  | None => inl "null value in column title violates not-null constraint"
  | Some s =>
      match varchar255_in s with
      | Some t => inr t
      | None => inl "value too long for type character varying(255)"
      end
  end.

(** A parameter assigned to [description TEXT]. *)
Definition description_in (v : option jsval) : string + option string :=
  match prepareValue v with
  | None => inr None
  | Some s =>
      match text_in s with
      | Some d => inr (Some d)
      | None => inl "invalid byte sequence for encoding"
      end
  end.

(** A parameter assigned to [completed BOOLEAN]. *)
Definition completed_in (v : option jsval) : string + option bool :=
  match prepareValue v with
  | None => inr None
  | Some s =>
      match bool_in s with
      | Some b => inr (Some b)
      | None => inl "invalid input syntax for type boolean"
      end
  end.

(** [INSERT INTO tasks (title, description) VALUES ($1, $2) RETURNING ...]:
    [id] from the sequence, [completed] FALSE, both timestamps
    CURRENT_TIMESTAMP. *)
Definition insert_task (now : Z) (values : list (option jsval)) (st : Store)
  : PgRes (list Task) :=
  match placeholder values 1, placeholder values 2 with
  | Some vt, Some vd =>
      match title_in vt with
      | inl e => inl e
      | inr t =>
          match description_in vd with
          | inl e => inl e
          | inr d =>
              if int4_max <? tasks_id_seq st
              then inl "nextval: reached maximum value of sequence"
              else
                let k := tasks_id_seq st in
                let r := {| title := t; description := d;
                            completed := Some false;
                            created_at := now; updated_at := now |} in
                inr ([(k, r)],
                     {| tasks := <[k := r]> (tasks st);
                        tasks_id_seq := k + 1 |})
          end
      end
  | _, _ => inl "there is no parameter"
  end.

(** One assignment of the SET list applied to a row. *)
Definition apply_set (now : Z) (values : list (option jsval))
    (c : SetClause) (r : Row) : string + Row :=
  match c with
  | SetNow => inr (set_updated_at now r)
  | SetParam col n =>
      match placeholder values n with
      | None => inl "there is no parameter"
      | Some v =>
          match col with
          | ColTitle =>
              match title_in v with
              | inl e => inl e
              | inr t => inr (set_title t r)
              end
          | ColDescription =>
              match description_in v with
              | inl e => inl e
              | inr d => inr (set_description d r)
              end
          | ColCompleted =>
              match completed_in v with
              | inl e => inl e
              | inr c => inr (set_completed c r)
              end
          end
      end
  end.

Fixpoint apply_sets (now : Z) (values : list (option jsval))
    (cs : list SetClause) (r : Row) : string + Row :=
  match cs with
  | [] => inr r
  | c :: cs' =>
      match apply_set now values c r with
      | inl e => inl e
      | inr r' => apply_sets now values cs' r'
      end
  end.

(** [UPDATE tasks SET ... WHERE id = $n RETURNING ...], with the BEFORE
    UPDATE trigger run on the new row.  A statement with nothing between SET
    and WHERE does not parse. *)
Definition update_task (now : Z) (updates : list SetClause)
    (where_placeholder : nat) (values : list (option jsval)) (st : Store)
  : PgRes (list Task) :=
  match updates with
  | [] => inl "syntax error at or near WHERE"
  | _ :: _ =>
      match where_id values where_placeholder with
      | inl e => inl e
      | inr None => inr ([], st)
      | inr (Some k) =>
          match tasks st !! k with
          | None => inr ([], st)
          | Some r =>
              match apply_sets now values updates r with
              | inl e => inl e
              | inr r' =>
                  let NEW := update_updated_at_column now r' in
                  inr ([(k, NEW)],
                       {| tasks := <[k := NEW]> (tasks st);
                          tasks_id_seq := tasks_id_seq st |})
              end
          end
      end
  end.

(** [DELETE FROM tasks WHERE id = $1 RETURNING id] *)
Definition delete_task (values : list (option jsval)) (st : Store)
  : PgRes (list Z) :=
  match where_id values 1 with
  | inl e => inl e
  | inr None => inr ([], st)
  | inr (Some k) =>
      match tasks st !! k with
      | None => inr ([], st)
      | Some _ =>
          inr ([k], {| tasks := delete k (tasks st);
                       tasks_id_seq := tasks_id_seq st |})
      end
  end.

(** The three counts of the statistics query.  [COUNT(expr)] counts the
    rows where [expr] is not NULL; a CASE without ELSE is NULL when its
    condition is false or NULL. *)
Definition count_where (p : Row → bool) (st : Store) : Z :=
  Z.of_nat (length (filter (λ kr : Task, p kr.2 = true) (map_to_list (tasks st)))).

Definition is_completed (r : Row) : bool :=
  match completed r with Some true => true | _ => false end.
Definition is_pending (r : Row) : bool :=
  match completed r with Some false => true | _ => false end.

Record Stats := { total : Z; n_completed : Z; n_pending : Z }.

Definition select_stats (st : Store) : Stats :=
  {| total := count_where (λ _, true) st;
     n_completed := count_where is_completed st;
     n_pending := count_where is_pending st |}.
End statements.

(** ** The cache: Redis key space *)

(** What the handlers put under a key: the JSON text of the task list or of
    one task.  [JSON.parse (JSON.stringify v)] gives [v] back, and both an
    array and an object are truthy in [if (cachedData)]. *)
Inductive Payload :=
| PList (l : list Task)
| PTask (t : Task).

Record Entry := {
  payload : Payload;
  expires_at : Z
}.

(** Glob patterns of the [KEYS] command: [*] matches any run of characters,
    [?] one character, any other character itself. *)
Fixpoint glob_match (p s : string) : bool :=
  match p with
  | EmptyString => match s with EmptyString => true | _ => false end
  | String c p' =>
      if Ascii.eqb c "*"%char then
        (fix star (s : string) : bool :=
           glob_match p' s
           || match s with EmptyString => false | String _ s' => star s' end) s
      else
        match s with
        | EmptyString => false
        | String d s' =>
            (Ascii.eqb c "?"%char || Ascii.eqb c d) && glob_match p' s'
        end
  end.

(** The clock counts microseconds; [SETEX] takes seconds. *)
Definition seconds (n : Z) : Z := n * 1000000.

Definition live (now : Z) (e : Entry) : bool := now <? expires_at e.

Definition redis_get (now : Z) (key : string) (db : gmap string Entry)
  : option Payload :=
  match db !! key with
  | Some e => if live now e then Some (payload e) else None
  | None => None
  end.

Definition redis_setEx (now : Z) (key : string) (ttl : Z) (value : Payload)
    (db : gmap string Entry) : gmap string Entry :=
  <[key := {| payload := value; expires_at := now + seconds ttl |}]> db.

Definition redis_keys (now : Z) (pattern : string) (db : gmap string Entry)
  : list string :=
  fst <$> filter (λ ke : string * Entry,
                    glob_match pattern ke.1 && live now ke.2 = true)
                 (map_to_list db).

Definition redis_del (keys : list string) (db : gmap string Entry)
  : gmap string Entry :=
  foldr delete db keys.

(** ** Responses, trace, state *)

Inductive exn :=
| PgError (message : string)
| RedisError (message : string)
| TypeError (message : string).

(** The JSON body of a response.  [BData] is [{success: true, data, cached}]
    ([cached] is absent from the answers to writes, [data] is absent when it
    is [undefined]); [BError] is [{success: false, error}] with a literal
    message and [BThrown] the same with [error.message] of a caught
    exception. *)
Inductive RespBody :=
| BData (data : option Payload) (cached : option bool)
| BDeleted (message : string) (id : Z)
| BStats (data : Stats)
| BHealth (database cache : string)
| BHealthError (e : exn)
| BRoot
| BError (error : string)
| BThrown (e : exn).

Record Response := {
  status : Z;
  body : RespBody
}.

Inductive RedisCmd :=
| GET (key : string)
| SETEX (key : string) (ttl : Z) (value : Payload)
| KEYS (pattern : string)
| DEL (keys : list string)
| PING.

(** What a handler does, in order.  A statement or command is recorded when
    it has completed, with whether it succeeded. *)
Inductive Ev :=
| EvPg (q : Stmt) (ok : bool)
| EvRedis (c : RedisCmd) (ok : bool)
| EvLog (msg : string)
| EvRespond (r : Response).

(** [pg_faults] and [redis_faults] say which of the coming calls of each
    driver reject ([true]); past their end no call rejects. *)
Record St := {
  store : Store;
  redis : gmap string Entry;
  redisConnected : bool;
  clock : Z;
  pg_faults : list bool;
  redis_faults : list bool;
  trace : list Ev
}.

Definition emit (e : Ev) (st : St) : St :=
  {| store := store st; redis := redis st;
     redisConnected := redisConnected st; clock := clock st;
     pg_faults := pg_faults st; redis_faults := redis_faults st;
     trace := trace st ++ [e] |}.

Definition pg_done (s' : Store) (st : St) : St :=
  {| store := s'; redis := redis st;
     redisConnected := redisConnected st; clock := clock st;
     pg_faults := tail (pg_faults st); redis_faults := redis_faults st;
     trace := trace st |}.

Definition redis_done (db' : gmap string Entry) (st : St) : St :=
  {| store := store st; redis := db';
     redisConnected := redisConnected st; clock := clock st;
     pg_faults := pg_faults st; redis_faults := tail (redis_faults st);
     trace := trace st |}.

(** ** The monad of handlers *)

Definition M (A : Type) : Type := St → (exn + A) * St.

Global Instance M_ret : MRet M := λ A a st, (inr a, st).

Global Instance M_bind : MBind M := λ A B f m st,
  match m st with
  | (inl e, st') => (inl e, st')
  | (inr a, st') => f a st'
  end.

(** [try { m } catch (error) { h error }] *)
Definition try_catch {A} (m : M A) (h : exn → M A) : M A := λ st,
  match m st with
  | (inl e, st') => h e st'
  | (inr a, st') => (inr a, st')
  end.

Definition throw {A} (e : exn) : M A := λ st, (inl e, st).

Definition gets {A} (f : St → A) : M A := λ st, (inr (f st), st).

(** [console.log] / [console.error] *)
Definition console (msg : string) : M unit := λ st, (inr (), emit (EvLog msg) st).

(** [await pgPool.query(q, values)] *)
Definition pg_query {A} (q : Stmt) (sem : Z → Store → PgRes A) : M A := λ st,
  match head (pg_faults st) with
  | Some true =>
      (inl (PgError "connection failure"),
       emit (EvPg q false) (pg_done (store st) st))
  | _ =>
      match sem (clock st) (store st) with
      | inl msg => (inl (PgError msg), emit (EvPg q false) (pg_done (store st) st))
      | inr (a, s') => (inr a, emit (EvPg q true) (pg_done s' st))
      end
  end.

(** [await redisClient.<command>(...)] *)
Definition redis_call {A} (c : RedisCmd)
    (sem : Z → gmap string Entry → A * gmap string Entry) : M A := λ st,
  match head (redis_faults st) with
  | Some true =>
      (inl (RedisError "command failed"),
       emit (EvRedis c false) (redis_done (redis st) st))
  | _ =>
      let '(a, db') := sem (clock st) (redis st) in
      (inr a, emit (EvRedis c true) (redis_done db' st))
  end.

(** [res.status(code).json(body)] *)
Definition respond (code : Z) (b : RespBody) : M Response := λ st,
  let r := {| status := code; body := b |} in
  (inr r, emit (EvRespond r) st).

(** ** Cache helpers *)

Definition getFromCache (key : string) : M (option Payload) :=
  connected ← gets redisConnected;
  if negb connected then mret None
  else
    try_catch
      (redis_call (GET key) (λ now db, (redis_get now key db, db)))
      (λ error, console "Cache read error:";; mret None).

Definition setInCache (key : string) (value : Payload) (expirationSeconds : Z)
  : M unit :=
  connected ← gets redisConnected;
  if negb connected then mret ()
  else
    try_catch
      (redis_call (SETEX key expirationSeconds value)
         (λ now db, ((), redis_setEx now key expirationSeconds value db)))
      (λ error, console "Cache write error:").

Definition invalidateCache (pattern : string) : M unit :=
  connected ← gets redisConnected;
  if negb connected then mret ()
  else
    try_catch
      (keys ← redis_call (KEYS pattern)
                 (λ now db, (redis_keys now pattern db, db));
       if 0 <? Z.of_nat (length keys)
       then redis_call (DEL keys) (λ now db, ((), redis_del keys db))
       else mret ())
      (λ error, console "Cache invalidation error:").

(** ** Routes *)

(** The arrays the PUT handler builds: [updates], [values], [paramCount]. *)
Record Build := {
  updates : list SetClause;
  values : list (option jsval);
  paramCount : nat
}.

(** [if (field !== undefined) { updates.push(`col = $${paramCount}`);
    values.push(field); paramCount++; }] *)
Definition push_field (col : Column) (field : option jsval) (b : Build) : Build :=
  if defined field then
    {| updates := updates b ++ [SetParam col (paramCount b)];
       values := values b ++ [field];
       paramCount := S (paramCount b) |}
  else b.

Section routes.
Context `{PgInput}.

(** GET /health *)
Definition get_health : M Response :=
  try_catch
    (pgResult ← pg_query QSelectNow (λ now st, inr ([now], st));
     (* [pgResult.rows ? 'ok' : 'error']: [rows] is an array, truthy *)
     let pgStatus := "ok" in
     connected ← gets redisConnected;
     redisStatus ←
       (if (connected : bool) then
          try_catch (redis_call PING (λ now db, ((), db));; mret "ok")
                    (λ error, mret "error")
        else mret "unavailable" : M string);
     respond 200 (BHealth pgStatus redisStatus))
    (λ error, respond 500 (BHealthError error)).

(** GET /api/tasks *)
Definition get_api_tasks : M Response :=
  try_catch
    (let cacheKey := "tasks:all" in
     cachedData ← getFromCache cacheKey;
     match cachedData with
     | Some data =>
         console "Cache hit: tasks:all";;
         respond 200 (BData (Some data) (Some true))
     | None =>
         result ← pg_query QSelectAll (λ now st, inr (select_all st, st));
         let tasks := result in
         setInCache cacheKey (PList tasks) 60;;
         respond 200 (BData (Some (PList tasks)) (Some false))
     end)
    (λ error, console "Error fetching tasks:";; respond 500 (BThrown error)).

(** GET /api/tasks/:id *)
Definition get_api_tasks_id (id : string) : M Response :=
  try_catch
    (let cacheKey := "tasks:" +:+ id in
     cachedData ← getFromCache cacheKey;
     match cachedData with
     | Some data =>
         console ("Cache hit: tasks:" +:+ id);;
         respond 200 (BData (Some data) (Some true))
     | None =>
         result ← pg_query (QSelectById [Some (JStr id)])
                    (λ now, select_by_id [Some (JStr id)]);
         match result with
         | [] => respond 404 (BError "Task not found")
         | task :: _ =>
             setInCache cacheKey (PTask task) 300;;
             respond 200 (BData (Some (PTask task)) (Some false))
         end
     end)
    (λ error, console "Error fetching task:";; respond 500 (BThrown error)).

(** POST /api/tasks *)
Definition post_api_tasks (req_body : Body) : M Response :=
  try_catch
    (let title := b_title req_body in
     let description := b_description req_body in
     if negb (truthy title) then respond 400 (BError "Title is required")
     else
       let params := [title; Some (js_or description (JStr ""))] in
       result ← pg_query (QInsert params) (λ now, insert_task now params);
       let newTask := head result in
       invalidateCache "tasks:*";;
       respond 201 (BData (PTask <$> newTask) None))
    (λ error, console "Error creating task:";; respond 500 (BThrown error)).

(** PUT /api/tasks/:id *)
Definition put_api_tasks_id (id : string) (req_body : Body) : M Response :=
  try_catch
    (let title := b_title req_body in
     let description := b_description req_body in
     let completed := b_completed req_body in
     checkResult ← pg_query (QSelectIdCheck [Some (JStr id)])
                     (λ now, select_id_check [Some (JStr id)]);
     if (length checkResult =? 0)%nat then respond 404 (BError "Task not found")
     else
       let b := {| updates := []; values := []; paramCount := 1 |} in
       let b := push_field ColTitle title b in
       let b := push_field ColDescription description b in
       let b := push_field ColCompleted completed b in
       if (length (updates b) =? 0)%nat
       then respond 400 (BError "No fields to update")
       else
         let updates' := updates b ++ [SetNow] in
         let values' := values b ++ [Some (JStr id)] in
         result ← pg_query (QUpdate updates' (paramCount b) values')
                    (λ now, update_task now updates' (paramCount b) values');
         let updatedTask := head result in
         invalidateCache "tasks:*";;
         respond 200 (BData (PTask <$> updatedTask) None))
    (λ error, console "Error updating task:";; respond 500 (BThrown error)).

(** DELETE /api/tasks/:id *)
Definition delete_api_tasks_id (id : string) : M Response :=
  try_catch
    (result ← pg_query (QDelete [Some (JStr id)])
                (λ now, delete_task [Some (JStr id)]);
     match result with
     | [] => respond 404 (BError "Task not found")
     | row :: _ =>
         invalidateCache "tasks:*";;
         respond 200 (BDeleted "Task deleted successfully" row)
     end)
    (λ error, console "Error deleting task:";; respond 500 (BThrown error)).

(** GET /api/stats.  The counts come as decimal text and [parseInt] reads
    them back; they are kept as numbers here. *)
Definition get_api_stats : M Response :=
  try_catch
    (result ← pg_query QStats (λ now st, inr ([select_stats st], st));
     match head result with
     | Some stats =>
         respond 200 (BStats {| total := total stats;
                                n_completed := n_completed stats;
                                n_pending := n_pending stats |})
     | None => throw (TypeError "Cannot read properties of undefined")
     end)
    (λ error, console "Error fetching stats:";; respond 500 (BThrown error)).

(** GET / *)
Definition get_root : M Response := respond 200 BRoot.

Inductive Request :=
| GET_health
| GET_api_tasks
| GET_api_tasks_id (id : string)
| POST_api_tasks (req_body : Body)
| PUT_api_tasks_id (id : string) (req_body : Body)
| DELETE_api_tasks_id (id : string)
| GET_api_stats
| GET_root.

Definition handle (r : Request) : M Response :=
  match r with
  | GET_health => get_health
  | GET_api_tasks => get_api_tasks
  | GET_api_tasks_id id => get_api_tasks_id id
  | POST_api_tasks b => post_api_tasks b
  | PUT_api_tasks_id id b => put_api_tasks_id id b
  | DELETE_api_tasks_id id => delete_api_tasks_id id
  | GET_api_stats => get_api_stats
  | GET_root => get_root
  end.

(** What happens to the server, one thing after another: a request is
    served at some time under some schedule of driver failures, or the Redis
    client raises [connect] or [error], which set [redisConnected]. *)
Inductive Event :=
| Http (now : Z) (pgf rdf : list bool) (r : Request)
| RedisConnect
| RedisClientError.

Definition arrive (now : Z) (pgf rdf : list bool) (st : St) : St :=
  {| store := store st; redis := redis st;
     redisConnected := redisConnected st; clock := now;
     pg_faults := pgf; redis_faults := rdf; trace := trace st |}.

Definition set_redisConnected (b : bool) (st : St) : St :=
  {| store := store st; redis := redis st;
     redisConnected := b; clock := clock st;
     pg_faults := pg_faults st; redis_faults := redis_faults st;
     trace := trace st |}.

Definition step (st : St) (e : Event) : St :=
  match e with
  | Http now pgf rdf r => (handle r (arrive now pgf rdf st)).2
  | RedisConnect => set_redisConnected true st
  | RedisClientError => set_redisConnected false st
  end.

Definition run (st : St) (es : list Event) : St := foldl step st es.

(** The server right after the database was initialised at [t0], with
    whatever the Redis volume holds. *)
Definition boot (t0 : Z) (db : gmap string Entry) : St :=
  {| store := init_store t0; redis := db; redisConnected := false;
     clock := t0; pg_faults := []; redis_faults := []; trace := [] |}.

End routes.

(** An instance of the input functions for examples: decimal integers,
    the spellings [true]/[false]/[t]/[f]/[1]/[0] of booleans, text of at most
    255 characters for [title], any text for [description]. *)
Definition digit_of (c : ascii) : option Z :=
  let n := Z.of_N (N_of_ascii c) in
  if (48 <=? n) && (n <=? 57) then Some (n - 48) else None.

Fixpoint digits_in (acc : Z) (s : string) : option Z :=
  match s with
  | EmptyString => Some acc
  | String c s' =>
      match digit_of c with
      | Some d => digits_in (10 * acc + d) s'
      | None => None
      end
  end.

Definition example_int4_in (s : string) : option Z :=
  match s with
  | EmptyString => None
  | String c s' =>
      let r := if Ascii.eqb c "-"%char
               then (if String.eqb s' "" then None else Z.opp <$> digits_in 0 s')
               else digits_in 0 s in
      match r with
      | Some n => if (- int4_max - 1 <=? n) && (n <=? int4_max) then Some n else None
      | None => None
      end
  end.

Definition example_bool_in (s : string) : option bool :=
  if bool_decide (s ∈ ["true"; "t"; "1"]) then Some true
  else if bool_decide (s ∈ ["false"; "f"; "0"]) then Some false
  else None.

Definition example_varchar255_in (s : string) : option string :=
  if Z.of_nat (String.length s) <=? 255 then Some s else None.

Global Instance example_pg : PgInput := {|
  int4_in := example_int4_in;
  varchar255_in := example_varchar255_in;
  text_in := Some;
  bool_in := example_bool_in
|}.

(** * Vocabulary of the statements *)

Section vocabulary.
Context `{PgInput}.

(** ** Running a handler *)

(** [returns m st Q E]: run from [st], [m] ends with a value and a state in
    [Q], or throws an exception in [E]. *)
Definition returns {A} (m : M A) (st : St)
    (Q : A → St → Prop) (E : exn → St → Prop) : Prop :=
  match m st with
  | (inr a, st') => Q a st'
  | (inl e, st') => E e st'
  end.

(** A handler's last step: the response, recorded in the trace. *)
Definition answered (code : Z) (b : RespBody) (st : St) : (exn + Response) * St :=
  let r := {| status := code; body := b |} in
  (inr r, emit (EvRespond r) st).

(** The [catch] block of a handler: a line on the console, then a 500
    carrying the message of the exception. *)
Definition caught (line : string) (e : exn) (st : St) : (exn + Response) * St :=
  answered 500 (BThrown e) (emit (EvLog line) st).

(** ** The cache helpers *)

(** What a cache helper may add to the trace: commands and console lines. *)
Definition is_cache_ev (e : Ev) : Prop :=
  match e with
  | EvRedis _ _ | EvLog _ => True
  | _ => False
  end.

Definition is_log (e : Ev) : Prop :=
  match e with EvLog _ => True | _ => False end.

(** A cache helper leaves the table, the clock, the connection flag and the
    failures to come of the Store as they were. *)
Record cache_only (st st' : St) : Prop := {
  co_store : store st' = store st;
  co_connected : redisConnected st' = redisConnected st;
  co_clock : clock st' = clock st;
  co_pg_faults : pg_faults st' = pg_faults st;
  co_trace : ∃ evs, trace st' = trace st ++ evs ∧ Forall is_cache_ev evs
}.

(** The client is disconnected, or the next command rejects. *)
Definition cache_fails (st : St) : Prop :=
  redisConnected st = false ∨ head (redis_faults st) = Some true.

(** None of the next [n] calls of a driver rejects. *)
Definition none_rejects (n : nat) (faults : list bool) : Prop :=
  Forall (λ b, b = false) (take n faults).

(** What [getFromCache] gives: the live entry when the client is connected
    and the command goes through, [null] otherwise. *)
Definition cache_read (key : string) (st : St) : option Payload :=
  if redisConnected st then
    match head (redis_faults st) with
    | Some true => None
    | _ => redis_get (clock st) key (redis st)
    end
  else None.

(** The state after an invalidation whose two commands go through. *)
Definition invalidated (pattern : string) (st : St) : St :=
  let keys := redis_keys (clock st) pattern (redis st) in
  let st1 := emit (EvRedis (KEYS pattern) true) (redis_done (redis st) st) in
  match keys with
  | [] => st1
  | _ => emit (EvRedis (DEL keys) true) (redis_done (redis_del keys (redis st)) st1)
  end.

(** No key matching the pattern reads as present from [now] on. *)
Definition invalid_from (now : Z) (pattern : string) (db : gmap string Entry)
  : Prop :=
  ∀ key now', now ≤ now' → glob_match pattern key = true →
    redis_get now' key db = None.

(** ** Responses *)

(** The response does not carry an exception of the Redis client. *)
Definition no_cache_error (resp : Response) : Prop :=
  match body resp with
  | BThrown (RedisError _) | BHealthError (RedisError _) => False
  | _ => True
  end.

Definition not_redis (e : exn) : Prop :=
  match e with RedisError _ => False | _ => True end.

Definition success (resp : Response) : Prop :=
  status resp = 200 ∨ status resp = 201.

(** The answer of GET /api/tasks/:id computed from the table alone. *)
Definition task_from_store (id : string) (st : St) : Response :=
  match select_by_id [Some (JStr id)] (store st) with
  | inl msg => {| status := 500; body := BThrown (PgError msg) |}
  | inr ([], _) => {| status := 404; body := BError "Task not found" |}
  | inr (task :: _, _) =>
      {| status := 200; body := BData (Some (PTask task)) (Some false) |}
  end.

(** ** Identifiers *)

(** Every id in the table was handed out by the sequence. *)
Definition ids_below (s : Store) : Prop :=
  ∀ k r, tasks s !! k = Some r → k < tasks_id_seq s.

(** The sequence never goes back, and stays above the ids in the table. *)
Definition store_le (s s' : Store) : Prop :=
  tasks_id_seq s ≤ tasks_id_seq s' ∧ (ids_below s → ids_below s').

(** ** The three writes *)

Definition is_write (r : Request) : Prop :=
  match r with
  | POST_api_tasks _ | PUT_api_tasks_id _ _ | DELETE_api_tasks_id _ => True
  | _ => False
  end.

Definition is_write_stmt (q : Stmt) : Prop :=
  match q with
  | QInsert _ | QUpdate _ _ _ | QDelete _ => True
  | _ => False
  end.

(** The existence check of the PUT handler, gone through. *)
Definition is_lookup (e : Ev) : Prop :=
  match e with
  | EvPg (QSelectIdCheck _) true => True
  | _ => False
  end.

(** The parameter array of the INSERT. *)
Definition insert_params (req_body : Body) : list (option jsval) :=
  [b_title req_body; Some (js_or (b_description req_body) (JStr ""))].

(** The arrays of the PUT handler once the three fields were looked at. *)
Definition put_build (req_body : Body) : Build :=
  push_field ColCompleted (b_completed req_body)
    (push_field ColDescription (b_description req_body)
       (push_field ColTitle (b_title req_body)
          {| updates := []; values := []; paramCount := 1 |})).

Definition put_check (id : string) : Stmt := QSelectIdCheck [Some (JStr id)].

Definition put_update (id : string) (req_body : Body) : Stmt :=
  QUpdate (updates (put_build req_body) ++ [SetNow])
          (paramCount (put_build req_body))
          (values (put_build req_body) ++ [Some (JStr id)]).

Definition delete_stmt (id : string) : Stmt := QDelete [Some (JStr id)].

(** None of [title], [description], [completed] is in the body. *)
Definition no_fields (req_body : Body) : Prop :=
  b_title req_body = None ∧ b_description req_body = None
  ∧ b_completed req_body = None.

Definition absent_or_empty (v : option jsval) : Prop :=
  v = None ∨ v = Some (JStr "").

(** The same body with another [completed] field, or none. *)
Definition with_completed (c : option jsval) (req_body : Body) : Body :=
  {| b_title := b_title req_body;
     b_description := b_description req_body;
     b_completed := c |}.

(** The ways through the POST handler: what decides each, and where it
    ends. *)
Inductive post_path (req_body : Body) (st : St) : Prop :=
| post_400 :
    truthy (b_title req_body) = false →
    post_api_tasks req_body st = answered 400 (BError "Title is required") st →
    post_path req_body st
| post_500 msg :
    truthy (b_title req_body) = true →
    head (pg_faults st) = Some true
    ∨ insert_task (clock st) (insert_params req_body) (store st) = inl msg →
    post_api_tasks req_body st =
      caught "Error creating task:" (PgError msg)
        (emit (EvPg (QInsert (insert_params req_body)) false)
           (pg_done (store st) st)) →
    post_path req_body st
| post_201 rows s' :
    truthy (b_title req_body) = true →
    head (pg_faults st) ≠ Some true →
    insert_task (clock st) (insert_params req_body) (store st) = inr (rows, s') →
    post_api_tasks req_body st =
      answered 201 (BData (PTask <$> head rows) None)
        (invalidateCache "tasks:*"
           (emit (EvPg (QInsert (insert_params req_body)) true)
              (pg_done s' st))).2 →
    post_path req_body st.

(** The ways through the PUT handler. *)
Inductive put_path (id : string) (req_body : Body) (st : St) : Prop :=
| put_500_check msg :
    head (pg_faults st) = Some true
    ∨ select_id_check [Some (JStr id)] (store st) = inl msg →
    put_api_tasks_id id req_body st =
      caught "Error updating task:" (PgError msg)
        (emit (EvPg (put_check id) false) (pg_done (store st) st)) →
    put_path id req_body st
| put_404 :
    head (pg_faults st) ≠ Some true →
    select_id_check [Some (JStr id)] (store st) = inr ([], store st) →
    put_api_tasks_id id req_body st =
      answered 404 (BError "Task not found")
        (emit (EvPg (put_check id) true) (pg_done (store st) st)) →
    put_path id req_body st
| put_400 k ks :
    head (pg_faults st) ≠ Some true →
    select_id_check [Some (JStr id)] (store st) = inr (k :: ks, store st) →
    no_fields req_body →
    put_api_tasks_id id req_body st =
      answered 400 (BError "No fields to update")
        (emit (EvPg (put_check id) true) (pg_done (store st) st)) →
    put_path id req_body st
| put_500_update k ks msg :
    head (pg_faults st) ≠ Some true →
    select_id_check [Some (JStr id)] (store st) = inr (k :: ks, store st) →
    ¬ no_fields req_body →
    head (tail (pg_faults st)) = Some true
    ∨ update_task (clock st) (updates (put_build req_body) ++ [SetNow])
        (paramCount (put_build req_body))
        (values (put_build req_body) ++ [Some (JStr id)]) (store st)
      = inl msg →
    put_api_tasks_id id req_body st =
      caught "Error updating task:" (PgError msg)
        (emit (EvPg (put_update id req_body) false)
           (pg_done (store st)
              (emit (EvPg (put_check id) true) (pg_done (store st) st)))) →
    put_path id req_body st
| put_200 k ks rows s' :
    head (pg_faults st) ≠ Some true →
    head (tail (pg_faults st)) ≠ Some true →
    select_id_check [Some (JStr id)] (store st) = inr (k :: ks, store st) →
    ¬ no_fields req_body →
    update_task (clock st) (updates (put_build req_body) ++ [SetNow])
      (paramCount (put_build req_body))
      (values (put_build req_body) ++ [Some (JStr id)]) (store st)
      = inr (rows, s') →
    put_api_tasks_id id req_body st =
      answered 200 (BData (PTask <$> head rows) None)
        (invalidateCache "tasks:*"
           (emit (EvPg (put_update id req_body) true)
              (pg_done s'
                 (emit (EvPg (put_check id) true) (pg_done (store st) st))))).2 →
    put_path id req_body st.

(** The ways through the DELETE handler. *)
Inductive delete_path (id : string) (st : St) : Prop :=
| delete_500 msg :
    head (pg_faults st) = Some true
    ∨ delete_task [Some (JStr id)] (store st) = inl msg →
    delete_api_tasks_id id st =
      caught "Error deleting task:" (PgError msg)
        (emit (EvPg (delete_stmt id) false) (pg_done (store st) st)) →
    delete_path id st
| delete_404 :
    head (pg_faults st) ≠ Some true →
    delete_task [Some (JStr id)] (store st) = inr ([], store st) →
    delete_api_tasks_id id st =
      answered 404 (BError "Task not found")
        (emit (EvPg (delete_stmt id) true) (pg_done (store st) st)) →
    delete_path id st
| delete_200 k ks s' :
    head (pg_faults st) ≠ Some true →
    delete_task [Some (JStr id)] (store st) = inr (k :: ks, s') →
    delete_api_tasks_id id st =
      answered 200 (BDeleted "Task deleted successfully" k)
        (invalidateCache "tasks:*"
           (emit (EvPg (delete_stmt id) true) (pg_done s' st))).2 →
    delete_path id st.

(** The new part of the trace of a write that succeeded: the write
    statement (after the existence check, for PUT), then only cache commands
    and console lines, then the response. *)
Definition ordered_write (st : St) (resp : Response) (st' : St) : Prop :=
  ∃ pre q inval,
    trace st' = trace st ++ pre ++ [EvPg q true] ++ inval ++ [EvRespond resp]
    ∧ Forall is_lookup pre ∧ is_write_stmt q ∧ Forall is_cache_ev inval.

(** A list or a get-by-id served in [st'] at [now'] or later, whatever the
    cache does then, answers from the table of [st']. *)
Definition reads_fresh (now : Z) (st' : St) : Prop :=
  ∀ now' pgf rdf b, now ≤ now' → head pgf ≠ Some true →
    let st'' := arrive now' pgf rdf (set_redisConnected b st') in
    (handle GET_api_tasks st'').1
    = inr {| status := 200;
             body := BData (Some (PList (select_all (store st')))) (Some false) |}
    ∧ ∀ id, (handle (GET_api_tasks_id id) st'').1 = inr (task_from_store id st').

(** The row an update is meant to leave, in the words of the specification:
    a supplied field takes the supplied value, any other keeps its value,
    [created_at] stays, [updated_at] is the time of the update. *)
Definition patch (req_body : Body) (now : Z) (r : Row) : Row :=
  {| title := match b_title req_body with
              | Some (JStr s) => s
              | _ => title r
              end;
     description := match b_description req_body with
                    | Some (JStr s) => Some s
                    | _ => description r
                    end;
     completed := match b_completed req_body with
                  | Some (JBool b) => Some b
                  | _ => completed r
                  end;
     created_at := created_at r;
     updated_at := now |}.

(** The supplied fields have the types of the data model, and the Store
    takes them as they are: [title] and [description] are strings,
    [completed] is a boolean. *)
Definition typed_update (req_body : Body) : Prop :=
  (∀ v, b_title req_body = Some v →
        ∃ s, v = JStr s ∧ varchar255_in s = Some s)
  ∧ (∀ v, b_description req_body = Some v →
          ∃ s, v = JStr s ∧ text_in s = Some s)
  ∧ (∀ v, b_completed req_body = Some v →
          ∃ b, v = JBool b ∧ bool_in (if b then "true" else "false") = Some b).

(** ** A server to run *)

(** The server a moment after the database was initialised, the Redis
    client connected, serving one request at time 5 with no driver
    failing. *)
Definition ex_st : St := arrive 5 [] [] (set_redisConnected true (boot 0 ∅)).

Definition ex_body : Body :=
  {| b_title := Some (JStr "Buy milk"); b_description := None; b_completed := None |}.

Definition ex_row : Row :=
  {| title := "Buy milk"; description := Some ""; completed := Some false;
     created_at := 5; updated_at := 5 |}.

Definition only_completed (v : jsval) : Body :=
  {| b_title := None; b_description := None; b_completed := Some v |}.

Definition only_title (v : jsval) : Body :=
  {| b_title := Some v; b_description := None; b_completed := None |}.

Definition no_body : Body :=
  {| b_title := None; b_description := None; b_completed := None |}.

(** ** Further vocabulary *)

(** A pattern without [*] and [?]. *)
Fixpoint plain (p : string) : bool :=
  match p with
  | EmptyString => true
  | String c p' =>
      negb (Ascii.eqb c "*"%char) && negb (Ascii.eqb c "?"%char) && plain p'
  end.

(** The Redis commands of a trace, in order. *)
Definition redis_cmds (tr : list Ev) : list (RedisCmd * bool) :=
  omap (λ e, match e with EvRedis c ok => Some (c, ok) | _ => None end) tr.

(** The statements of a trace, in order. *)
Definition pg_stmts (tr : list Ev) : list (Stmt * bool) :=
  omap (λ e, match e with EvPg q ok => Some (q, ok) | _ => None end) tr.


(** The values [!title] is true of. *)
Definition falsy (v : option jsval) : Prop :=
  v = None ∨ v = Some JNull ∨ v = Some (JBool false)
  ∨ v = Some (JNum 0) ∨ v = Some (JStr "").

(** One field of a PUT body applied to a row: nothing when the field is
    [undefined], else the value the column reads from it, or the error of the
    column. *)
Definition put_field {A} (field : option jsval) (read : option jsval → string + A)
    (set : A → Row → Row) (r : Row) : string + Row :=
  if defined field then
    match read field with
    | inl e => inl e
    | inr a => inr (set a r)
    end
  else inr r.

(** The three fields of a PUT body applied to a row, in the order of the
    handler. *)
Definition put_row (req_body : Body) (r : Row) : string + Row :=
  match put_field (b_title req_body) title_in set_title r with
  | inl e => inl e
  | inr r1 =>
      match put_field (b_description req_body) description_in set_description r1 with
      | inl e => inl e
      | inr r2 => put_field (b_completed req_body) completed_in set_completed r2
      end
  end.


(** [completed IS NULL] *)
Definition is_null_completed (r : Row) : bool :=
  match completed r with None => true | _ => false end.

(** The [cache] field of the health report. *)
Definition health_cache (st : St) : string :=
  if redisConnected st then
    match head (redis_faults st) with
    | Some true => "error"
    | _ => "ok"
    end
  else "unavailable".

(** A row of [s'] with an id that the sequence had already handed out in
    [s] was a row of [s], created at the same time. *)
Definition rows_kept (s s' : Store) : Prop :=
  store_le s s'
  ∧ (ids_below s →
     ∀ k r', tasks s' !! k = Some r' → k < tasks_id_seq s →
       ∃ r, tasks s !! k = Some r ∧ created_at r' = created_at r).

(** No row is older than its last update, and none was updated after [T]. *)
Definition times_ok (T : Z) (s : Store) : Prop :=
  ∀ k r, tasks s !! k = Some r → created_at r ≤ updated_at r ∧ updated_at r ≤ T.

(** The requests come at times that never go back, from [t] on. *)
Fixpoint times_sorted (t : Z) (es : list Event) : Prop :=
  match es with
  | [] => True
  | Http now _ _ _ :: es' => t ≤ now ∧ times_sorted now es'
  | _ :: es' => times_sorted t es'
  end.


(** The server of [ex_st] one microsecond after it served the list. *)
Definition ex_cached : St := arrive 6 [] [] (handle GET_api_tasks ex_st).2.

(** The first sample row. *)
Definition ex_sample : Row :=
  sample_row 0 ("Dockeriser le frontend",
                "Créer un Dockerfile multi-stage pour React/Vite").

(** The response of a run, or a placeholder when it threw. *)
Definition response_of (out : (exn + Response) * St) : Response :=
  match out.1 with
  | inr resp => resp
  | inl _ => {| status := 0; body := BRoot |}
  end.


(** ** Values the Store takes or rejects *)








End vocabulary.

(** * Properties *)

(** ** Redis commands *)

Lemma glob_star_any (s : string) : glob_match "*" s = true.
Proof.
  induction s as [|c s IH]; [reflexivity|].
  simpl in *. rewrite IH. reflexivity.
Qed.

Lemma glob_tasks_key (suffix : string) :
  glob_match "tasks:*" ("tasks:" +:+ suffix) = true.
Proof. apply (glob_star_any suffix). Qed.

Lemma redis_keys_elem now p db key :
  key ∈ redis_keys now p db ↔
  ∃ e, db !! key = Some e ∧ glob_match p key = true ∧ live now e = true.
Proof.
  unfold redis_keys. rewrite list_elem_of_fmap. split.
  - intros [[k e] [-> Hin]]. apply list_elem_of_filter in Hin as [Hp Hin].
    apply elem_of_map_to_list in Hin. simpl in *.
    apply andb_true_iff in Hp as [??]. eauto.
  - intros (e & Hl & Hg & Hlive). exists (key, e). split; [done|].
    apply list_elem_of_filter. split.
    + simpl. by rewrite Hg, Hlive.
    + by apply elem_of_map_to_list.
Qed.

Lemma redis_del_lookup keys db (k : string) :
  redis_del keys db !! k = if decide (k ∈ keys) then None else db !! k.
Proof.
  unfold redis_del. induction keys as [|x keys IH]; cbn [foldr].
  - destruct (decide (k ∈ [])) as [Hin|]; [by apply elem_of_nil in Hin | done].
  - destruct (decide (x = k)) as [->|Hne].
    + rewrite lookup_delete_eq. rewrite decide_True; [done | left].
    + rewrite lookup_delete_ne by done. rewrite IH.
      destruct (decide (k ∈ keys)) as [Hin|Hin].
      * rewrite decide_True; [done | by right].
      * rewrite decide_False; [done|].
        intros [->|?]%elem_of_cons; done.
Qed.

Lemma live_mono now now' e : now ≤ now' → live now e = false → live now' e = false.
Proof. unfold live. intros ? ?%Z.ltb_ge. apply Z.ltb_ge. lia. Qed.

(** Once the live keys matching a pattern are deleted, no key matching it
    reads as present, now or later. *)
Lemma redis_get_after_del now now' p db key :
  now ≤ now' → glob_match p key = true →
  redis_get now' key (redis_del (redis_keys now p db) db) = None.
Proof.
  intros Hle Hg. unfold redis_get. rewrite redis_del_lookup.
  case_decide as Hin; [done|].
  destruct (db !! key) as [e|] eqn:He; [|done].
  destruct (live now e) eqn:Hl.
  - exfalso. apply Hin, redis_keys_elem. eauto.
  - by rewrite (live_mono now now' e).
Qed.

Lemma redis_get_no_keys now now' p db key :
  now ≤ now' → glob_match p key = true → redis_keys now p db = [] →
  redis_get now' key db = None.
Proof.
  intros Hle Hg Hk. unfold redis_get.
  destruct (db !! key) as [e|] eqn:He; [|done].
  destruct (live now e) eqn:Hl.
  - assert (key ∈ redis_keys now p db) as Hin by (apply redis_keys_elem; eauto).
    rewrite Hk in Hin. by apply elem_of_nil in Hin.
  - by rewrite (live_mono now now' e).
Qed.

(** ** What the cache helpers do, case by case *)

Lemma getFromCache_run key st :
  getFromCache key st =
  if redisConnected st then
    match head (redis_faults st) with
    | Some true =>
        (inr None,
         emit (EvLog "Cache read error:")
           (emit (EvRedis (GET key) false) (redis_done (redis st) st)))
    | _ =>
        (inr (redis_get (clock st) key (redis st)),
         emit (EvRedis (GET key) true) (redis_done (redis st) st))
    end
  else (inr None, st).
Proof.
  unfold getFromCache, mbind, M_bind, gets, try_catch, redis_call, console, mret, M_ret.
  destruct (redisConnected st); simpl; [|done].
  by destruct (redis_faults st) as [|[] ?].
Qed.

Lemma setInCache_run key value ttl st :
  setInCache key value ttl st =
  if redisConnected st then
    match head (redis_faults st) with
    | Some true =>
        (inr (),
         emit (EvLog "Cache write error:")
           (emit (EvRedis (SETEX key ttl value) false) (redis_done (redis st) st)))
    | _ =>
        (inr (),
         emit (EvRedis (SETEX key ttl value) true)
           (redis_done (redis_setEx (clock st) key ttl value (redis st)) st))
    end
  else (inr (), st).
Proof.
  unfold setInCache, mbind, M_bind, gets, try_catch, redis_call, console, mret, M_ret.
  destruct (redisConnected st); simpl; [|done].
  by destruct (redis_faults st) as [|[] ?].
Qed.

Lemma invalidateCache_run pattern st :
  invalidateCache pattern st =
  if redisConnected st then
    match redis_faults st with
    | true :: _ =>
        (inr (),
         emit (EvLog "Cache invalidation error:")
           (emit (EvRedis (KEYS pattern) false) (redis_done (redis st) st)))
    | _ :: true :: _ =>
        let keys := redis_keys (clock st) pattern (redis st) in
        let st1 := emit (EvRedis (KEYS pattern) true) (redis_done (redis st) st) in
        match keys with
        | [] => (inr (), st1)
        | _ =>
            (inr (),
             emit (EvLog "Cache invalidation error:")
               (emit (EvRedis (DEL keys) false) (redis_done (redis st) st1)))
        end
    | _ => (inr (), invalidated pattern st)
    end
  else (inr (), st).
Proof.
  unfold invalidateCache, invalidated, mbind, M_bind, gets, try_catch,
    redis_call, console, mret, M_ret.
  destruct (redisConnected st); simpl; [|done].
  destruct (redis_faults st) as [|[] [|[] ?]] eqn:E; simpl; try done.
  all: destruct (redis_keys (clock st) pattern (redis st)); simpl; [done|].
  all: by rewrite E.
Qed.

Lemma cache_only_refl st : cache_only st st.
Proof. split; try done. exists []. by rewrite app_nil_r. Qed.

Lemma cache_only_emit e st st' :
  is_cache_ev e → cache_only st st' → cache_only st (emit e st').
Proof.
  intros He [? ? ? ? (evs & Ht & Hevs)]. split; try done.
  exists (evs ++ [e]). simpl. rewrite Ht, app_assoc. split; [done|].
  apply Forall_app; split; [done | by constructor].
Qed.

Lemma cache_only_redis_done db st st' :
  cache_only st st' → cache_only st (redis_done db st').
Proof. by intros [? ? ? ? ?]. Qed.


Lemma cache_only_invalidated pattern st : cache_only st (invalidated pattern st).
Proof.
  unfold invalidated.
  destruct (redis_keys (clock st) pattern (redis st));
    repeat first [ apply cache_only_emit; [exact I|]
                 | apply cache_only_redis_done
                 | apply cache_only_refl ].
Qed.

Lemma getFromCache_frame key st :
  cache_only st (getFromCache key st).2
  ∧ redis (getFromCache key st).2 = redis st.
Proof.
  rewrite getFromCache_run.
  destruct (redisConnected st), (redis_faults st) as [|[] ?]; simpl;
    (split; [|done]);
    repeat first [ apply cache_only_emit; [exact I|]
                 | apply cache_only_redis_done
                 | apply cache_only_refl ].
Qed.

Lemma setInCache_frame key value ttl st :
  (setInCache key value ttl st).1 = inr ()
  ∧ cache_only st (setInCache key value ttl st).2.
Proof.
  rewrite setInCache_run.
  destruct (redisConnected st), (redis_faults st) as [|[] ?]; simpl;
    (split; [done|]);
    repeat first [ apply cache_only_emit; [exact I|]
                 | apply cache_only_redis_done
                 | apply cache_only_refl ].
Qed.

Lemma invalidateCache_frame pattern st :
  (invalidateCache pattern st).1 = inr ()
  ∧ cache_only st (invalidateCache pattern st).2.
Proof.
  rewrite invalidateCache_run.
  destruct (redisConnected st); [|split; [done | apply cache_only_refl]].
  destruct (redis_faults st) as [|[] [|[] ?]]; simpl;
    try destruct (redis_keys (clock st) pattern (redis st)); simpl;
    (split; [done|]);
    repeat first [ apply cache_only_invalidated
                 | apply cache_only_emit; [exact I|]
                 | apply cache_only_redis_done
                 | apply cache_only_refl ].
Qed.

(** ** Reasoning about a handler, statement by statement *)

Lemma returns_mono {A} (m : M A) st (Q Q' : A → St → Prop) (E E' : exn → St → Prop) :
  returns m st Q E →
  (∀ a st', Q a st' → Q' a st') → (∀ e st', E e st' → E' e st') →
  returns m st Q' E'.
Proof. unfold returns. destruct (m st) as [[e|a] st']; auto. Qed.

Lemma returns_ret {A} (a : A) st Q E : Q a st → returns (mret a) st Q E.
Proof. done. Qed.

Lemma returns_bind {A B} (m : M A) (f : A → M B) st Q E :
  returns m st (λ a st', returns (f a) st' Q E) E →
  returns (m ≫= f) st Q E.
Proof.
  unfold returns, mbind, M_bind. by destruct (m st) as [[e|a] st'].
Qed.

Lemma returns_try_catch {A} (m : M A) (h : exn → M A) st Q E :
  returns m st Q (λ e st', returns (h e) st' Q E) →
  returns (try_catch m h) st Q E.
Proof.
  unfold returns, try_catch. by destruct (m st) as [[e|a] st'].
Qed.

Lemma returns_throw {A} (e : exn) st (Q : A → St → Prop) E :
  E e st → returns (throw e) st Q E.
Proof. done. Qed.

Lemma returns_gets {A} (f : St → A) st Q E : Q (f st) st → returns (gets f) st Q E.
Proof. done. Qed.

Lemma returns_console msg st Q E :
  Q () (emit (EvLog msg) st) → returns (console msg) st Q E.
Proof. done. Qed.

Lemma returns_respond code b st Q E :
  Q {| status := code; body := b |} (emit (EvRespond {| status := code; body := b |}) st) →
  returns (respond code b) st Q E.
Proof. done. Qed.

Lemma returns_pg_query {A} q (sem : Z → Store → PgRes A) st Q E :
  (∀ msg, E (PgError msg) (emit (EvPg q false) (pg_done (store st) st))) →
  (∀ a s', head (pg_faults st) ≠ Some true →
           sem (clock st) (store st) = inr (a, s') →
           Q a (emit (EvPg q true) (pg_done s' st))) →
  returns (pg_query q sem) st Q E.
Proof.
  intros HE HQ. unfold returns, pg_query.
  destruct (head (pg_faults st)) as [[]|] eqn:Hf; [apply HE| |];
    (destruct (sem (clock st) (store st)) as [msg|[a s']] eqn:Hs;
     [apply HE | by apply HQ]).
Qed.

Lemma returns_redis_call {A} c (sem : Z → gmap string Entry → A * gmap string Entry)
    st Q E :
  (∀ msg, E (RedisError msg) (emit (EvRedis c false) (redis_done (redis st) st))) →
  (head (redis_faults st) ≠ Some true →
   Q (sem (clock st) (redis st)).1
     (emit (EvRedis c true) (redis_done (sem (clock st) (redis st)).2 st))) →
  returns (redis_call c sem) st Q E.
Proof.
  intros HE HQ. unfold returns, redis_call.
  destruct (head (redis_faults st)) as [[]|] eqn:Hf; [apply HE| |];
    (destruct (sem (clock st) (redis st)) as [a db'] eqn:Hs; by apply HQ).
Qed.

(** The three helpers never throw. *)
Lemma returns_getFromCache key st Q E :
  (∀ v st', getFromCache key st = (inr v, st') → Q v st') →
  returns (getFromCache key) st Q E.
Proof.
  intros HQ. unfold returns.
  destruct (getFromCache key st) as [[e|v] st'] eqn:Hr; [|by apply HQ].
  rewrite getFromCache_run in Hr.
  by destruct (redisConnected st), (redis_faults st) as [|[] ?].
Qed.

Lemma returns_setInCache key value ttl st Q E :
  (∀ st', setInCache key value ttl st = (inr (), st') → Q () st') →
  returns (setInCache key value ttl) st Q E.
Proof.
  intros HQ. unfold returns.
  destruct (setInCache_frame key value ttl st) as [Hv _].
  destruct (setInCache key value ttl st) as [[e|[]] st'] eqn:Hr; [done|by apply HQ].
Qed.

Lemma returns_invalidateCache pattern st Q E :
  (∀ st', invalidateCache pattern st = (inr (), st') → Q () st') →
  returns (invalidateCache pattern) st Q E.
Proof.
  intros HQ. unfold returns.
  destruct (invalidateCache_frame pattern st) as [Hv _].
  destruct (invalidateCache pattern st) as [[e|[]] st'] eqn:Hr; [done|by apply HQ].
Qed.

(** One step of a handler, whatever it is. *)
Ltac returns_step :=
  lazymatch goal with
  | |- returns (try_catch _ _) _ _ _ => apply returns_try_catch
  | |- returns (mbind _ _) _ _ _ => apply returns_bind
  | |- returns (getFromCache _) _ _ _ =>
      apply returns_getFromCache; intros ? ? ?
  | |- returns (setInCache _ _ _) _ _ _ =>
      apply returns_setInCache; intros ? ?
  | |- returns (invalidateCache _) _ _ _ =>
      apply returns_invalidateCache; intros ? ?
  | |- returns (pg_query _ _) _ _ _ =>
      apply returns_pg_query; [intros ? | intros ? ? ? ?]
  | |- returns (redis_call _ _) _ _ _ =>
      apply returns_redis_call; [intros ? | intros ?]
  | |- returns (respond _ _) _ _ _ => apply returns_respond
  | |- returns (console _) _ _ _ => apply returns_console
  | |- returns (gets _) _ _ _ => apply returns_gets
  | |- returns (throw _) _ _ _ => apply returns_throw
  | |- returns (mret _) _ _ _ => apply returns_ret
  | |- returns (let _ := _ in _) _ _ _ => cbv zeta
  end.

Section responses.
Context `{PgInput}.

(** Every handler answers, and never with an exception of the cache. *)
Lemma handle_returns r st :
  returns (handle r) st (λ resp _, no_cache_error resp) (λ _ _, False).
Proof.
  destruct r; unfold handle, get_health, get_api_tasks, get_api_tasks_id,
    post_api_tasks, put_api_tasks_id, delete_api_tasks_id, get_api_stats,
    get_root.
  8: by apply returns_respond.
  all: apply returns_try_catch.
  all: eapply returns_mono with (Q := λ resp _, no_cache_error resp)
                                (E := λ e _, not_redis e);
    [ | by auto | intros [] ? ?; try done; repeat returns_step; exact I ].
  all: repeat (returns_step || case_match); exact I.
Qed.

Lemma getFromCache_trace key st x st' :
  getFromCache key st = (x, st') → ∃ evs, trace st' = trace st ++ evs.
Proof.
  intros Hr. destruct (getFromCache_frame key st) as [[_ _ _ _ (evs & Ht & _)] _].
  rewrite Hr in Ht. eauto.
Qed.

Lemma setInCache_trace key v ttl st x st' :
  setInCache key v ttl st = (x, st') → ∃ evs, trace st' = trace st ++ evs.
Proof.
  intros Hr. destruct (setInCache_frame key v ttl st) as [_ [_ _ _ _ (evs & Ht & _)]].
  rewrite Hr in Ht. eauto.
Qed.

Lemma invalidateCache_trace p st x st' :
  invalidateCache p st = (x, st') → ∃ evs, trace st' = trace st ++ evs.
Proof.
  intros Hr. destruct (invalidateCache_frame p st) as [_ [_ _ _ _ (evs & Ht & _)]].
  rewrite Hr in Ht. eauto.
Qed.

Ltac trace_facts :=
  repeat match goal with
    | Hr : getFromCache _ _ = _ |- _ =>
        apply getFromCache_trace in Hr; destruct Hr as [? Hr]
    | Hr : setInCache _ _ _ _ = _ |- _ =>
        apply setInCache_trace in Hr; destruct Hr as [? Hr]
    | Hr : invalidateCache _ _ = _ |- _ =>
        apply invalidateCache_trace in Hr; destruct Hr as [? Hr]
    end;
  simpl;
  repeat (match goal with
          | Ht : trace _ = _ |- _ => rewrite Ht; clear Ht
          end; simpl);
  rewrite <- ?app_assoc.

(** A 500 is answered only after a statement sent to the Store failed
    while that request was served. *)
Lemma handle_500_store r st :
  returns (handle r) st
    (λ resp st', ∃ evs, trace st' = trace st ++ evs
                   ∧ (status resp = 500 → ∃ q, EvPg q false ∈ evs))
    (λ _ _, False).
Proof.
  destruct r; unfold handle, get_health, get_api_tasks, get_api_tasks_id,
    post_api_tasks, put_api_tasks_id, delete_api_tasks_id, get_api_stats,
    get_root.
  8: { apply returns_respond. eexists. split; [reflexivity|]. by intros [=]. }
  all: apply returns_try_catch.
  all: eapply returns_mono
         with (Q := λ resp st', ∃ evs, trace st' = trace st ++ evs
                       ∧ (status resp = 500 → ∃ q, EvPg q false ∈ evs))
              (E := λ e st', ∃ evs, trace st' = trace st ++ evs
                       ∧ ∃ q, EvPg q false ∈ evs);
    [ | by auto
    | intros e st' (evs & Ht & q & Hq); repeat returns_step;
      simpl; rewrite Ht, <- ?app_assoc; eexists; (split; [reflexivity|]);
      intros _; exists q; rewrite ?elem_of_app; auto ].
  all: repeat (returns_step || (progress simplify_eq) || case_match).
  all: trace_facts; eexists; (split; [reflexivity|]).
  all: try (by intros [=]).
  all: eexists; rewrite ?elem_of_app, ?elem_of_cons; eauto 10.
Qed.

End responses.

(** ** Identifiers: the sequence stays ahead of every row *)

Lemma store_le_refl s : store_le s s.
Proof. by split. Qed.

Lemma store_le_trans s1 s2 s3 : store_le s1 s2 → store_le s2 s3 → store_le s1 s3.
Proof. intros [? ?] [? ?]. split; [lia | auto]. Qed.

Section identifiers.
Context `{PgInput}.

Lemma insert_task_le now vs s a s' :
  insert_task now vs s = inr (a, s') → store_le s s'.
Proof.
  unfold insert_task. intros Hi.
  repeat case_match; simplify_eq. split; simpl; [lia|].
  intros Hb k r Hl. simpl in *.
  apply lookup_insert_Some in Hl as [[<- _]|[_ Hl]]; [lia|].
  apply Hb in Hl. lia.
Qed.

Lemma update_task_le now us n vs s a s' :
  update_task now us n vs s = inr (a, s') → store_le s s'.
Proof.
  unfold update_task. intros Hu.
  repeat case_match; simplify_eq; try apply store_le_refl.
  split; simpl; [lia|].
  intros Hb k' r' Hl. simpl in *.
  apply lookup_insert_Some in Hl as [[<- _]|[_ Hl]]; eauto.
Qed.

Lemma delete_task_le vs s a s' :
  delete_task vs s = inr (a, s') → store_le s s'.
Proof.
  unfold delete_task. intros Hd.
  repeat case_match; simplify_eq; try apply store_le_refl.
  split; simpl; [lia|].
  intros Hb k' r' Hl. simpl in *.
  apply lookup_delete_Some in Hl as [_ Hl]. eauto.
Qed.

Lemma select_by_id_same vs s a s' : select_by_id vs s = inr (a, s') → s' = s.
Proof. unfold select_by_id. intros. by repeat case_match; simplify_eq. Qed.

Lemma select_id_check_same vs s a s' :
  select_id_check vs s = inr (a, s') → s' = s.
Proof. unfold select_id_check. intros. by repeat case_match; simplify_eq. Qed.

Lemma getFromCache_store key st x st' :
  getFromCache key st = (x, st') → store st' = store st.
Proof.
  intros Hr. destruct (getFromCache_frame key st) as [[? _ _ _ _] _].
  by rewrite Hr in *.
Qed.

Lemma setInCache_store key v ttl st x st' :
  setInCache key v ttl st = (x, st') → store st' = store st.
Proof.
  intros Hr. destruct (setInCache_frame key v ttl st) as [_ [? _ _ _ _]].
  by rewrite Hr in *.
Qed.

Lemma invalidateCache_store p st x st' :
  invalidateCache p st = (x, st') → store st' = store st.
Proof.
  intros Hr. destruct (invalidateCache_frame p st) as [_ [? _ _ _ _]].
  by rewrite Hr in *.
Qed.

Ltac store_facts :=
  repeat match goal with
    | Hr : getFromCache _ _ = _ |- _ => apply getFromCache_store in Hr
    | Hr : setInCache _ _ _ _ = _ |- _ => apply setInCache_store in Hr
    | Hr : invalidateCache _ _ = _ |- _ => apply invalidateCache_store in Hr
    | Hr : insert_task _ _ _ = inr _ |- _ => apply insert_task_le in Hr
    | Hr : update_task _ _ _ _ _ = inr _ |- _ => apply update_task_le in Hr
    | Hr : delete_task _ _ = inr _ |- _ => apply delete_task_le in Hr
    | Hr : select_by_id _ _ = inr _ |- _ => apply select_by_id_same in Hr
    | Hr : select_id_check _ _ = inr _ |- _ => apply select_id_check_same in Hr
    end.

Lemma handle_store_le r st : store_le (store st) (store (handle r st).2).
Proof.
  cut (returns (handle r) st (λ _ st', store_le (store st) (store st'))
         (λ _ _, False)).
  { unfold returns. by destruct (handle r st) as [[e|a] st']. }
  destruct r; unfold handle, get_health, get_api_tasks, get_api_tasks_id,
    post_api_tasks, put_api_tasks_id, delete_api_tasks_id, get_api_stats,
    get_root.
  8: apply returns_respond, store_le_refl.
  all: apply returns_try_catch.
  all: eapply returns_mono
         with (Q := λ _ st', store_le (store st) (store st'))
              (E := λ _ st', store_le (store st) (store st'));
    [ | by auto | intros e st' Hle; repeat returns_step; exact Hle ].
  all: repeat (returns_step || (progress simplify_eq) || case_match).
  all: store_facts; simpl in *; subst;
    repeat match goal with Heq : store _ = _ |- _ => rewrite Heq; clear Heq end;
    simpl; eauto using store_le_refl, store_le_trans.
Qed.

Lemma step_store_le st e : store_le (store st) (store (step st e)).
Proof.
  destruct e as [now pgf rdf r| |]; simpl; try apply store_le_refl.
  apply (handle_store_le r (arrive now pgf rdf st)).
Qed.

Lemma run_store_le es st : store_le (store st) (store (run st es)).
Proof.
  revert st. induction es as [|e es IH]; intros st; [apply store_le_refl|].
  simpl. eapply store_le_trans; [apply step_store_le | apply IH].
Qed.

Lemma boot_ids_below t0 db : ids_below (store (boot t0 db)).
Proof.
  intros k r Hl. simpl in *.
  do 8 (apply lookup_insert_Some in Hl as [[<- _]|[_ Hl]]; [lia|]).
  by rewrite lookup_empty in Hl.
Qed.

Lemma reachable_ids_below t0 db es : ids_below (store (run (boot t0 db) es)).
Proof. apply run_store_le, boot_ids_below. Qed.


End identifiers.

(** ** The three write handlers, path by path *)

Section writes.
Context `{PgInput}.

Local Opaque getFromCache setInCache invalidateCache.

Lemma invalidate_then {A} (k : M A) st :
  (invalidateCache "tasks:*" ≫= λ _, k) st
  = k (invalidateCache "tasks:*" st).2.
Proof.
  unfold mbind, M_bind.
  destruct (invalidateCache_frame "tasks:*" st) as [Hv _].
  destruct (invalidateCache "tasks:*" st) as [[e|[]] st2]; simpl in *; done.
Qed.

(** A statement either fails, leaving the table as it was, or goes
    through. *)
Lemma pg_query_cases {A} q (sem : Z → Store → PgRes A) st :
  (∃ msg, (head (pg_faults st) = Some true ∨ sem (clock st) (store st) = inl msg)
          ∧ pg_query q sem st
            = (inl (PgError msg), emit (EvPg q false) (pg_done (store st) st)))
  ∨ (∃ a s', head (pg_faults st) ≠ Some true
             ∧ sem (clock st) (store st) = inr (a, s')
             ∧ pg_query q sem st = (inr a, emit (EvPg q true) (pg_done s' st))).
Proof.
  unfold pg_query.
  destruct (head (pg_faults st)) as [[]|] eqn:Hf; [left; eexists; by split; [left|]| |];
    (destruct (sem (clock st) (store st)) as [msg|[a s']];
     [left; eexists; by split; [right|] | right; by exists a, s']).
Qed.

Lemma post_paths req_body st : post_path req_body st.
Proof.
  destruct (truthy (b_title req_body)) eqn:Ht.
  - destruct (pg_query_cases (QInsert (insert_params req_body))
                (λ now, insert_task now (insert_params req_body)) st)
      as [(msg & Hwhy & Hq)|(rows & s' & Hf & Hi & Hq)].
    + eapply post_500; [done..|].
      unfold post_api_tasks, try_catch. rewrite Ht. simpl.
      unfold mbind at 1, M_bind at 1. unfold insert_params in Hq.
      by rewrite Hq.
    + eapply post_201; [done..|].
      unfold post_api_tasks, try_catch. rewrite Ht. simpl.
      unfold mbind at 1, M_bind at 1. unfold insert_params in Hq.
      rewrite Hq. by rewrite invalidate_then.
  - apply post_400; [done|].
    unfold post_api_tasks, try_catch. by rewrite Ht.
Qed.

Lemma no_fields_updates req_body :
  no_fields req_body ↔ updates (put_build req_body) = [].
Proof.
  unfold no_fields, put_build, push_field.
  destruct (b_title req_body), (b_description req_body), (b_completed req_body);
    simpl; split; try done; intros (? & ? & ?); done.
Qed.

Lemma put_paths id req_body st : put_path id req_body st.
Proof.
  destruct (pg_query_cases (put_check id)
              (λ now, select_id_check [Some (JStr id)]) st)
    as [(msg & Hwhy & Hq)|(ids & s1 & Hf & Hc & Hq)].
  { eapply put_500_check; [done|].
    unfold put_api_tasks_id, try_catch. simpl.
    unfold mbind at 1, M_bind at 1. unfold put_check in Hq. by rewrite Hq. }
  pose proof (select_id_check_same _ _ _ _ Hc) as ->.
  destruct ids as [|k ks].
  { eapply put_404; [done..|].
    unfold put_api_tasks_id, try_catch. simpl.
    unfold mbind at 1, M_bind at 1. unfold put_check in Hq. by rewrite Hq. }
  destruct (length (updates (put_build req_body)) =? 0)%nat eqn:Hlen.
  { apply Nat.eqb_eq, length_zero_iff_nil in Hlen.
    eapply put_400; [done..|by apply no_fields_updates|].
    unfold put_api_tasks_id, try_catch. simpl.
    unfold mbind at 1, M_bind at 1. unfold put_check in Hq. rewrite Hq.
    fold (put_build req_body). by rewrite Hlen. }
  assert (¬ no_fields req_body) as Hnf.
  { rewrite no_fields_updates. intros Hu. by rewrite Hu in Hlen. }
  set (st1 := emit (EvPg (put_check id) true) (pg_done (store st) st)) in *.
  destruct (pg_query_cases (put_update id req_body)
              (λ now, update_task now (updates (put_build req_body) ++ [SetNow])
                        (paramCount (put_build req_body))
                        (values (put_build req_body) ++ [Some (JStr id)])) st1)
    as [(msg & Hwhy & Hq2)|(rows & s' & Hf2 & Hup & Hq2)].
  { eapply put_500_update; [done..|].
    unfold put_api_tasks_id, try_catch. cbv zeta.
    unfold mbind at 1, M_bind at 1. unfold put_check in Hq. rewrite Hq.
    cbv beta iota. fold (put_build req_body). rewrite Hlen.
    unfold mbind at 1, M_bind at 1. unfold put_update in Hq2.
    fold st1. change (length (k :: ks) =? 0)%nat with false. cbv beta iota.
    by rewrite Hq2. }
  eapply put_200; [done..|].
  unfold put_api_tasks_id, try_catch. cbv zeta.
  unfold mbind at 1, M_bind at 1. unfold put_check in Hq. rewrite Hq.
  cbv beta iota. fold (put_build req_body). rewrite Hlen.
  unfold mbind at 1, M_bind at 1. unfold put_update in Hq2 |- *.
  fold st1. change (length (k :: ks) =? 0)%nat with false. cbv beta iota.
  rewrite Hq2. by rewrite invalidate_then.
Qed.

Lemma delete_task_none vs s s' : delete_task vs s = inr ([], s') → s' = s.
Proof. unfold delete_task. intros. by repeat case_match; simplify_eq. Qed.

Lemma delete_paths id st : delete_path id st.
Proof.
  destruct (pg_query_cases (delete_stmt id)
              (λ now, delete_task [Some (JStr id)]) st)
    as [(msg & Hwhy & Hq)|(ids & s' & Hf & Hd & Hq)].
  { eapply delete_500; [done|].
    unfold delete_api_tasks_id, try_catch.
    unfold mbind at 1, M_bind at 1. unfold delete_stmt in Hq. by rewrite Hq. }
  destruct ids as [|k ks].
  { pose proof (delete_task_none _ _ _ Hd) as ->.
    eapply delete_404; [done..|].
    unfold delete_api_tasks_id, try_catch.
    unfold mbind at 1, M_bind at 1. unfold delete_stmt in Hq. by rewrite Hq. }
  eapply delete_200; [done..|].
  unfold delete_api_tasks_id, try_catch.
  unfold mbind at 1, M_bind at 1. unfold delete_stmt in Hq. rewrite Hq.
  by rewrite invalidate_then.
Qed.

End writes.

(** ** The two read handlers *)

Lemma getFromCache_value key st :
  (getFromCache key st).1 = inr (cache_read key st).
Proof.
  rewrite getFromCache_run. unfold cache_read.
  destruct (redisConnected st), (redis_faults st) as [|[] ?]; simpl; done.
Qed.

Lemma getFromCache_redis_faults key st :
  redis_faults (getFromCache key st).2
  = if redisConnected st then tail (redis_faults st) else redis_faults st.
Proof.
  rewrite getFromCache_run.
  destruct (redisConnected st); [|done].
  destruct (redis_faults st) as [|[] ?] eqn:E; simpl; by rewrite E.
Qed.


Section reads.
Context `{PgInput}.

Local Opaque getFromCache setInCache invalidateCache.

Lemma get_then {A} (key : string) (k : option Payload → M A) st :
  (getFromCache key ≫= k) st
  = k (cache_read key st) (getFromCache key st).2.
Proof.
  unfold mbind, M_bind. pose proof (getFromCache_value key st) as Hv.
  destruct (getFromCache key st) as [x st1]. simpl in *. by subst.
Qed.

Lemma set_then {A} key value ttl (k : M A) st :
  (setInCache key value ttl ≫= λ _, k) st
  = k (setInCache key value ttl st).2.
Proof.
  unfold mbind, M_bind.
  destruct (setInCache_frame key value ttl st) as [Hv _].
  destruct (setInCache key value ttl st) as [[e|[]] st2]; simpl in *; done.
Qed.

Lemma get_api_tasks_hit st data :
  cache_read "tasks:all" st = Some data →
  get_api_tasks st =
    answered 200 (BData (Some data) (Some true))
      (emit (EvLog "Cache hit: tasks:all") (getFromCache "tasks:all" st).2).
Proof.
  intros Hh. unfold get_api_tasks, try_catch. cbv zeta.
  by rewrite get_then, Hh.
Qed.

Lemma get_api_tasks_miss st :
  cache_read "tasks:all" st = None →
  head (pg_faults st) ≠ Some true →
  get_api_tasks st =
    answered 200 (BData (Some (PList (select_all (store st)))) (Some false))
      (setInCache "tasks:all" (PList (select_all (store st))) 60
         (emit (EvPg QSelectAll true)
            (pg_done (store st) (getFromCache "tasks:all" st).2))).2.
Proof.
  intros Hm Hf. unfold get_api_tasks, try_catch. cbv zeta.
  rewrite get_then, Hm.
  destruct (getFromCache_frame "tasks:all" st) as [[Hs _ Hck Hpf _] _].
  unfold mbind at 1, M_bind at 1, pg_query. rewrite Hpf, Hs.
  destruct (head (pg_faults st)) as [[]|]; [done| |]; by rewrite set_then.
Qed.

Lemma get_api_tasks_id_hit id st data :
  cache_read ("tasks:" +:+ id) st = Some data →
  get_api_tasks_id id st =
    answered 200 (BData (Some data) (Some true))
      (emit (EvLog ("Cache hit: tasks:" +:+ id))
         (getFromCache ("tasks:" +:+ id) st).2).
Proof.
  intros Hh. unfold get_api_tasks_id, try_catch. cbv zeta.
  by rewrite get_then, Hh.
Qed.

Lemma get_api_tasks_id_miss id st :
  cache_read ("tasks:" +:+ id) st = None →
  head (pg_faults st) ≠ Some true →
  (get_api_tasks_id id st).1 = inr (task_from_store id st).
Proof.
  intros Hm Hf. unfold get_api_tasks_id, try_catch, task_from_store. cbv zeta.
  rewrite get_then, Hm.
  destruct (getFromCache_frame ("tasks:" +:+ id) st) as [[Hs _ Hck Hpf _] _].
  unfold mbind at 1, M_bind at 1, pg_query. rewrite Hpf, Hs.
  destruct (head (pg_faults st)) as [[]|]; [done| |];
    (destruct (select_by_id [Some (JStr id)] (store st)) as [msg|[[|t ts] s']];
     [done | done | by rewrite set_then]).
Qed.


End reads.

(** * The claims *)

Lemma cache_read_fails key st : cache_fails st → cache_read key st = None.
Proof.
  unfold cache_read. intros [->| ->]; [done|]. by destruct (redisConnected st).
Qed.

Section claims.
Context `{PgInput}.

(** C2.  Whatever goes wrong in the cache stays in the cache helpers.  With
    the client disconnected or the command rejecting, [getFromCache] gives
    [null], [setInCache] and [invalidateCache] do nothing, none of them
    throws nor touches the table; the two read routes then answer from the
    Store; and no route ever answers with an exception of the cache: every
    request is answered, and a 500 only after a statement of that request
    failed in the Store. *)
Theorem cache_failures_absorbed :
  (∀ key st, cache_fails st →
     ∃ st', getFromCache key st = (inr None, st')
            ∧ store st' = store st ∧ redis st' = redis st)
  ∧ (∀ key value ttl st, cache_fails st →
       ∃ st', setInCache key value ttl st = (inr (), st')
              ∧ store st' = store st ∧ redis st' = redis st)
  ∧ (∀ pattern st, cache_fails st ∨ redis_faults st !! 1%nat = Some true →
       ∃ st', invalidateCache pattern st = (inr (), st')
              ∧ store st' = store st ∧ redis st' = redis st)
  ∧ (∀ st, cache_fails st → head (pg_faults st) ≠ Some true →
       (handle GET_api_tasks st).1
       = inr {| status := 200;
                body := BData (Some (PList (select_all (store st)))) (Some false) |})
  ∧ (∀ id st, cache_fails st → head (pg_faults st) ≠ Some true →
       (handle (GET_api_tasks_id id) st).1 = inr (task_from_store id st))
  ∧ (∀ r st, ∃ resp st' evs,
       handle r st = (inr resp, st') ∧ no_cache_error resp
       ∧ trace st' = trace st ++ evs
       ∧ (status resp = 500 → ∃ q, EvPg q false ∈ evs)).
Proof.
  repeat split.
  - intros key st Hf. rewrite getFromCache_run.
    destruct Hf as [->|Hf]; [(eexists; split; [reflexivity | by simpl])|].
    destruct (redisConnected st); [|(eexists; split; [reflexivity | by simpl])].
    rewrite Hf. (eexists; split; [reflexivity | by simpl]).
  - intros key value ttl st Hf. rewrite setInCache_run.
    destruct Hf as [->|Hf]; [(eexists; split; [reflexivity | by simpl])|].
    destruct (redisConnected st); [|(eexists; split; [reflexivity | by simpl])].
    rewrite Hf. (eexists; split; [reflexivity | by simpl]).
  - intros pattern st Hf. rewrite invalidateCache_run.
    destruct (redisConnected st) eqn:Hc; [|(eexists; split; [reflexivity | by simpl])].
    destruct Hf as [[?|Hf]|Hf]; [congruence| |].
    + destruct (redis_faults st) as [|[] ?]; try done. (eexists; split; [reflexivity | by simpl]).
    + destruct (redis_faults st) as [|[] [|[] ?]]; try done; try (eexists; split; [reflexivity | by simpl]).
      simpl. destruct (redis_keys _ _ _); (eexists; split; [reflexivity | by simpl]).
  - intros st Hf Hpg. simpl.
    rewrite get_api_tasks_miss by auto using cache_read_fails. done.
  - intros id st Hf Hpg. simpl.
    apply get_api_tasks_id_miss; auto using cache_read_fails.
  - intros r st.
    pose proof (handle_returns r st) as H1.
    pose proof (handle_500_store r st) as H2.
    unfold returns in *. destruct (handle r st) as [[e|resp] st']; [done|].
    destruct H2 as (evs & Ht & H5). by exists resp, st', evs.
Qed.

(** *** C1: the order of a write *)

Lemma invalidated_invalid pattern st :
  invalid_from (clock st) pattern (redis (invalidated pattern st)).
Proof.
  intros key now' Hle Hg. unfold invalidated.
  destruct (redis_keys (clock st) pattern (redis st)) as [|k ks] eqn:Hk.
  - by eapply redis_get_no_keys.
  - cbn [emit redis_done redis]. rewrite <- Hk. by apply redis_get_after_del.
Qed.

(** After the write statement: invalidation, then the response. *)
Lemma invalidate_and_answer code b st1 :
  let resp := {| status := code; body := b |} in
  let st' := (answered code b (invalidateCache "tasks:*" st1).2).2 in
  (∃ inval, trace st' = trace st1 ++ inval ++ [EvRespond resp]
            ∧ Forall is_cache_ev inval)
  ∧ store st' = store st1
  ∧ (redisConnected st1 = true → none_rejects 2 (redis_faults st1) →
     invalid_from (clock st1) "tasks:*" (redis st')).
Proof.
  intros resp st'. subst st'. simpl.
  destruct (invalidateCache_frame "tasks:*" st1) as [_ [Hs _ _ _ (evs & Ht & Hevs)]].
  split; [|split; [done|]].
  - exists evs. by rewrite Ht, app_assoc.
  - intros Hc Hn. rewrite invalidateCache_run, Hc.
    unfold none_rejects in Hn.
    destruct (redis_faults st1) as [|[] [|[] ?]]; simpl in *;
      try apply invalidated_invalid.
    + by apply Forall_cons in Hn as [? _].
    + by apply Forall_cons in Hn as [? _].
    + by apply Forall_cons in Hn as [? _].
    + by apply Forall_cons in Hn as [_ [? _]%Forall_cons].
Qed.

(** With nothing live under [tasks:*], the two read routes answer from the
    Store, whatever the cache does. *)
Lemma reads_from_store st now0 :
  invalid_from now0 "tasks:*" (redis st) →
  ∀ now' pgf rdf b, now0 ≤ now' → head pgf ≠ Some true →
    let st'' := arrive now' pgf rdf (set_redisConnected b st) in
    (handle GET_api_tasks st'').1
    = inr {| status := 200;
             body := BData (Some (PList (select_all (store st)))) (Some false) |}
    ∧ ∀ id, (handle (GET_api_tasks_id id) st'').1 = inr (task_from_store id st).
Proof.
  intros Hinv now' pgf rdf b Hle Hpg st''.
  assert (∀ suffix, cache_read ("tasks:" +:+ suffix) st'' = None) as Hmiss.
  { intros suffix. unfold cache_read. simpl.
    destruct b; [|done]. destruct (head rdf) as [[]|]; try done;
      apply Hinv; auto using glob_tasks_key. }
  split.
  - simpl. rewrite get_api_tasks_miss; [done|apply (Hmiss "all")|done].
  - intros id. simpl. rewrite get_api_tasks_id_miss; [done|apply Hmiss|done].
Qed.

Lemma write_core w st resp st' code b st1 pre q :
  handle w st = (inr resp, st') →
  handle w st = answered code b (invalidateCache "tasks:*" st1).2 →
  trace st1 = trace st ++ pre ++ [EvPg q true] →
  Forall is_lookup pre → is_write_stmt q →
  redisConnected st1 = redisConnected st →
  redis_faults st1 = redis_faults st → clock st1 = clock st →
  ordered_write st resp st'
  ∧ (redisConnected st = true → none_rejects 2 (redis_faults st) →
     invalid_from (clock st) "tasks:*" (redis st') ∧ reads_fresh (clock st) st').
Proof.
  intros Hrun Heq Ht Hpre Hq Hc Hrf Hck.
  rewrite Hrun in Heq.
  destruct (invalidate_and_answer code b st1) as ((inval & Hti & Hinv) & Hs & Hfresh).
  unfold answered in Heq, Hti, Hs, Hfresh. cbn [snd] in *.
  injection Heq as -> ->.
  split.
  - exists pre, q, inval. rewrite Hti, Ht.
    rewrite <- !app_assoc. done.
  - intros Hcon Hn. rewrite <- Hc, <- Hrf, <- Hck in *.
    specialize (Hfresh Hcon Hn). split; [done|].
    intros now' pgf rdf b' Hle Hpg.
    by apply (reads_from_store _ _ Hfresh).
Qed.

(** C1 (as amended).  A write that succeeds sends its statement to the
    Store first (for PUT after the existence check), then runs the
    invalidation of [tasks:*], whose failure is swallowed, and answers last.
    When the client is connected and neither KEYS nor DEL rejects, no key
    under [tasks:*] is live afterwards, and a list or get-by-id served after
    the response answers from the Store, not from the cache. *)
Theorem write_then_invalidate_then_respond w st resp st' :
  is_write w → handle w st = (inr resp, st') → success resp →
  ordered_write st resp st'
  ∧ (redisConnected st = true → none_rejects 2 (redis_faults st) →
     invalid_from (clock st) "tasks:*" (redis st') ∧ reads_fresh (clock st) st').
Proof.
  intros Hw Hrun Hok.
  destruct w as [| | |req_body|id req_body|id| |]; try done; simpl in Hrun.
  - destruct (post_paths req_body st) as [? Heq|msg ? ? Heq|rows s' ? ? ? Heq].
    + rewrite Hrun in Heq. injection Heq as -> _. by destruct Hok.
    + rewrite Hrun in Heq. injection Heq as -> _. by destruct Hok.
    + by eapply (write_core (POST_api_tasks req_body) _ _ _ _ _ _ []).
  - destruct (put_paths id req_body st)
      as [msg ? Heq| ? ? Heq|k ks ? ? ? Heq|k ks msg ? ? ? ? Heq|k ks rows s' ? ? ? ? ? Heq].
    + rewrite Hrun in Heq. injection Heq as -> _. by destruct Hok.
    + rewrite Hrun in Heq. injection Heq as -> _. by destruct Hok.
    + rewrite Hrun in Heq. injection Heq as -> _. by destruct Hok.
    + rewrite Hrun in Heq. injection Heq as -> _. by destruct Hok.
    + eapply (write_core (PUT_api_tasks_id id req_body) _ _ _ _ _ _
                [EvPg (put_check id) true] (put_update id req_body));
        try done.
      * simpl. by rewrite <- app_assoc.
      * by repeat constructor.
  - destruct (delete_paths id st) as [msg ? Heq| ? ? Heq|k ks s' ? ? Heq].
    + rewrite Hrun in Heq. injection Heq as -> _. by destruct Hok.
    + rewrite Hrun in Heq. injection Heq as -> _. by destruct Hok.
    + by eapply (write_core (DELETE_api_tasks_id id) _ _ _ _ _ _ []).
Qed.

Lemma store_after_invalidate e p st1 :
  store (emit e (invalidateCache p st1).2) = store st1.
Proof. by destruct (invalidateCache_frame p st1) as [_ [? _ _ _ _]]. Qed.

(** *** C9, C5: requests that change nothing *)

Lemma where_id_int id k :
  int4_in id = Some k → where_id [Some (JStr id)] 1 = inr (Some k).
Proof. unfold where_id. simpl. by intros ->. Qed.

Lemma select_id_check_int id k s :
  int4_in id = Some k →
  select_id_check [Some (JStr id)] s
  = inr (match tasks s !! k with Some _ => [k] | None => [] end, s).
Proof.
  intros Hid. unfold select_id_check. rewrite (where_id_int _ _ Hid). simpl.
  by destruct (tasks s !! k).
Qed.

Lemma delete_task_absent id k s :
  int4_in id = Some k → tasks s !! k = None →
  delete_task [Some (JStr id)] s = inr ([], s).
Proof.
  intros Hid Hk. unfold delete_task. rewrite (where_id_int _ _ Hid). by rewrite Hk.
Qed.

(** C9 (as amended).  A DELETE whose id is that of no row changes nothing:
    the table and the key space are as before, and the handler did nothing
    but send the statement and answer: no invalidation.  The answer is 404
    when the Store reads the id as an integer and the statement goes
    through; when the id is no integer of the column's type the statement
    fails and the answer is 500, as whenever the statement fails. *)
Theorem delete_absent_no_effect id st :
  (∀ k, int4_in id = Some k → tasks (store st) !! k = None) →
  ∃ resp st' ok logs,
    handle (DELETE_api_tasks_id id) st = (inr resp, st')
    ∧ store st' = store st ∧ redis st' = redis st
    ∧ trace st' = trace st ++ [EvPg (delete_stmt id) ok] ++ logs ++ [EvRespond resp]
    ∧ Forall is_log logs
    ∧ (ok = false → ∃ msg, resp = {| status := 500; body := BThrown (PgError msg) |})
    ∧ (head (pg_faults st) ≠ Some true →
       match int4_in id with
       | Some _ =>
           ok = true ∧ logs = []
           ∧ resp = {| status := 404; body := BError "Task not found" |}
       | None => ok = false
       end).
Proof.
  intros Habs.
  assert (∀ rows s', delete_task [Some (JStr id)] (store st) = inr (rows, s') →
                     rows = [] ∧ int4_in id ≠ None) as Hnone.
  { intros rows s' Hd. destruct (int4_in id) as [k|] eqn:Hid.
    - rewrite (delete_task_absent id k _ Hid (Habs k eq_refl)) in Hd.
      by injection Hd as <- _.
    - unfold delete_task, where_id in Hd. simpl in Hd. by rewrite Hid in Hd. }
  destruct (delete_paths id st) as [msg Hwhy Heq| Hf Hd Heq|k' ks s' Hf Hd Heq].
  - simpl. rewrite Heq.
    eexists _, _, false, [EvLog "Error deleting task:"].
    split; [reflexivity|]. simpl. rewrite <- !app_assoc.
    split_and!; try done; [by repeat constructor | by eexists |].
    intros Hf. destruct Hwhy as [?|Hwhy]; [done|].
    destruct (int4_in id) as [k|] eqn:Hid; [|done].
    by rewrite (delete_task_absent id k _ Hid (Habs k eq_refl)) in Hwhy.
  - simpl. rewrite Heq. eexists _, _, true, [].
    split; [reflexivity|]. simpl. rewrite <- !app_assoc.
    split_and!; try done.
    intros _. destruct (Hnone _ _ Hd) as [_ Hid].
    by destruct (int4_in id).
  - by destruct (Hnone _ _ Hd) as [? _].
Qed.

(** C5 (as amended).  A PUT with none of the three fields never changes the
    table nor the key space.  The handler first looks the id up in the Store
    and only then tests the fields: it answers 400 when the row exists, 404
    when it does not, 500 when the lookup failed; the lookup is the only
    statement it sends. *)
Theorem put_without_fields id req_body st :
  no_fields req_body →
  ∃ resp st' ok logs,
    handle (PUT_api_tasks_id id req_body) st = (inr resp, st')
    ∧ store st' = store st ∧ redis st' = redis st
    ∧ trace st' = trace st ++ [EvPg (put_check id) ok] ++ logs ++ [EvRespond resp]
    ∧ Forall is_log logs
    ∧ (ok = false → status resp = 500)
    ∧ (∀ k, int4_in id = Some k → head (pg_faults st) ≠ Some true →
         ok = true
         ∧ resp = match tasks (store st) !! k with
                  | Some _ => {| status := 400; body := BError "No fields to update" |}
                  | None => {| status := 404; body := BError "Task not found" |}
                  end).
Proof.
  intros Hnf.
  destruct (put_paths id req_body st)
    as [msg Hwhy Heq| ? Hc Heq|k ks ? Hc ? Heq|k ks msg ? ? ? ? Heq
       |k ks rows s' ? ? ? ? ? Heq]; [| | |done..]; simpl; rewrite Heq.
  - eexists _, _, false, [EvLog "Error updating task:"].
    split; [reflexivity|]. simpl. rewrite <- !app_assoc.
    split_and!; try done; [by repeat constructor|].
    intros k Hid Hf. destruct Hwhy as [?|Hwhy]; [done|].
    by rewrite (select_id_check_int _ _ _ Hid) in Hwhy.
  - eexists _, _, true, [].
    split; [reflexivity|]. simpl. rewrite <- !app_assoc.
    split_and!; try done.
    intros k Hid Hf. rewrite (select_id_check_int _ _ _ Hid) in Hc.
    by destruct (tasks (store st) !! k).
  - eexists _, _, true, [].
    split; [reflexivity|]. simpl. rewrite <- !app_assoc.
    split_and!; try done.
    intros k' Hid Hf. rewrite (select_id_check_int _ _ _ Hid) in Hc.
    by destruct (tasks (store st) !! k').
Qed.

(** *** What an update of typed values changes *)

Lemma update_task_typed id k r req_body now s :
  int4_in id = Some k → tasks s !! k = Some r →
  typed_update req_body →
  update_task now (updates (put_build req_body) ++ [SetNow])
    (paramCount (put_build req_body))
    (values (put_build req_body) ++ [Some (JStr id)]) s
  = inr ([(k, patch req_body now r)],
         {| tasks := <[k := patch req_body now r]> (tasks s);
            tasks_id_seq := tasks_id_seq s |}).
Proof.
  intros Hid Hrow (Ht & Hd & Hc).
  destruct req_body as [t d c]. simpl in Ht, Hd, Hc.
  destruct t as [vt|]; [destruct (Ht vt eq_refl) as (st_ & -> & Hst)|];
  (destruct d as [vd|]; [destruct (Hd vd eq_refl) as (sd & -> & Hsd)|]);
  (destruct c as [vc|]; [destruct (Hc vc eq_refl) as (bc & -> & Hbc)|]);
  clear Ht Hd Hc;
  unfold update_task, where_id, put_build, push_field, patch; simpl;
  rewrite Hid, Hrow;
  unfold title_in, description_in, completed_in; simpl;
  rewrite ?Hst; simpl; rewrite ?Hsd; simpl;
  try (destruct bc; simpl; rewrite Hbc; simpl); reflexivity.
Qed.

Lemma none_rejects_2 l :
  none_rejects 2 l → head l ≠ Some true ∧ head (tail l) ≠ Some true.
Proof.
  unfold none_rejects. destruct l as [|[] [|[] ?]]; simpl; intros Hn; try done.
  - by apply Forall_cons in Hn as [? _].
  - by apply Forall_cons in Hn as [? _].
  - by apply Forall_cons in Hn as [? _].
  - by apply Forall_cons in Hn as [_ [? _]%Forall_cons].
Qed.


(** *** C10: what a create inserts *)

Lemma insert_task_inv now vs s rows s' :
  insert_task now vs s = inr (rows, s') →
  ∃ t d,
    let r := {| title := t; description := d; completed := Some false;
                created_at := now; updated_at := now |} in
    rows = [(tasks_id_seq s, r)]
    ∧ s' = {| tasks := <[tasks_id_seq s := r]> (tasks s);
              tasks_id_seq := tasks_id_seq s + 1 |}.
Proof.
  unfold insert_task. intros Hi. repeat case_match; simplify_eq. by eexists _, _.
Qed.



(** C10.  The POST handler does not read [completed]: with any other value
    of that field, or without it, it does and answers the same; and the row
    of a 201 always has [completed] false, in the answer and in the
    table. *)
Theorem post_ignores_completed req_body c st :
  handle (POST_api_tasks (with_completed c req_body)) st
  = handle (POST_api_tasks req_body) st
  ∧ ∀ resp st',
      handle (POST_api_tasks (with_completed c req_body)) st = (inr resp, st') →
      status resp = 201 →
      ∃ k r, body resp = BData (Some (PTask (k, r))) None
             ∧ completed r = Some false
             ∧ tasks (store st') !! k = Some r.
Proof.
  split; [reflexivity|].
  intros resp st' Hrun Hst. simpl in Hrun.
  destruct (post_paths (with_completed c req_body) st)
    as [? Heq|msg ? ? Heq|rows s' ? ? Hi Heq]; rewrite Hrun in Heq.
  - injection Heq as -> _. done.
  - injection Heq as -> _. done.
  - apply insert_task_inv in Hi as (t & d & -> & ->).
    unfold answered in Heq. injection Heq as -> ->.
    eexists _, _. split; [reflexivity|]. split; [done|].
    rewrite store_after_invalidate. simpl. apply lookup_insert_eq.
Qed.

(** *** C8: the list and its cache entry *)

Global Instance created_desc_total : Total created_desc.
Proof. intros a b. unfold created_desc. lia. Qed.

Lemma head_tail_lookup {A} (l : list A) : head (tail l) = l !! 1%nat.
Proof. by destruct l as [|? []]. Qed.

Lemma setInCache_redis key value ttl st :
  redisConnected st = true → head (redis_faults st) ≠ Some true →
  redis (setInCache key value ttl st).2
  = redis_setEx (clock st) key ttl value (redis st).
Proof.
  intros Hc Hf. rewrite setInCache_run, Hc.
  by destruct (head (redis_faults st)) as [[]|].
Qed.

(** The state in which [setInCache] runs on a miss: after the GET and the
    statement. *)
Lemma miss_then_set q s key value ttl st e :
  redisConnected st = true → redis_faults st !! 1%nat ≠ Some true →
  redis (emit e (setInCache key value ttl
                   (emit (EvPg q true) (pg_done s (getFromCache key st).2))).2)
  = redis_setEx (clock st) key ttl value (redis st).
Proof.
  intros Hc Hf.
  destruct (getFromCache_frame key st) as [[_ Hc' Hck _ _] Hr].
  pose proof (getFromCache_redis_faults key st) as Hrf. rewrite Hc in Hrf.
  simpl. rewrite setInCache_redis; simpl.
  - by rewrite Hck, Hr.
  - by rewrite Hc'.
  - by rewrite Hrf, head_tail_lookup.
Qed.


End claims.

(** * More on the cache helpers *)

Lemma glob_plain_star lit key :
  plain lit = true → glob_match (lit +:+ "*") key = String.prefix lit key.
Proof.
  revert key. induction lit as [|c lit IH]; intros key Hp.
  - change (glob_match "*" key = String.prefix "" key).
    rewrite glob_star_any. by destruct key.
  - simpl in Hp. apply andb_true_iff in Hp as [[Hs Hq]%andb_true_iff Hp].
    apply negb_true_iff in Hs, Hq. simpl. rewrite Hs, Hq.
    destruct key as [|d key]; [done|]. simpl.
    destruct (Ascii.eqb_spec c d) as [->|Hne].
    + destruct (ascii_dec d d); [by apply IH | done].
    + destruct (ascii_dec c d); [done | done].
Qed.

Lemma invalidated_redis pattern st :
  redis (invalidated pattern st)
  = redis_del (redis_keys (clock st) pattern (redis st)) (redis st).
Proof.
  unfold invalidated.
  by destruct (redis_keys (clock st) pattern (redis st)) eqn:Hk.
Qed.

Lemma invalidateCache_works pattern st :
  redisConnected st = true → none_rejects 2 (redis_faults st) →
  invalidateCache pattern st = (inr (), invalidated pattern st).
Proof.
  intros Hc Hn. rewrite invalidateCache_run, Hc. unfold none_rejects in Hn.
  destruct (redis_faults st) as [|[] [|[] ?]]; simpl in *; try done.
  - by apply Forall_cons in Hn as [? _].
  - by apply Forall_cons in Hn as [? _].
  - by apply Forall_cons in Hn as [? _].
  - by apply Forall_cons in Hn as [_ [? _]%Forall_cons].
Qed.

(** X1.  [invalidateCache('tasks:*')], the client connected and KEYS and
    DEL going through, removes exactly the live keys that start with
    [tasks:]: such a key reads as absent from then on, every other key
    keeps its entry, and the table is not touched. *)
Theorem invalidateCache_removes_tasks_keys st :
  redisConnected st = true → none_rejects 2 (redis_faults st) →
  let st' := (invalidateCache "tasks:*" st).2 in
  store st' = store st
  ∧ ∀ key,
      if String.prefix "tasks:" key
      then ∀ now', clock st ≤ now' → redis_get now' key (redis st') = None
      else redis st' !! key = redis st !! key.
Proof.
  intros Hc Hn st'. subst st'. rewrite (invalidateCache_works _ _ Hc Hn).
  cbn [snd]. split.
  { by destruct (cache_only_invalidated "tasks:*" st). }
  intros key. pose proof (glob_plain_star "tasks:" key eq_refl) as Hg.
  change ("tasks:" +:+ "*") with "tasks:*" in Hg.
  destruct (String.prefix "tasks:" key) eqn:Hp.
  - intros now' Hle. by apply invalidated_invalid.
  - rewrite invalidated_redis, redis_del_lookup.
    case_decide as Hin; [|done].
    apply redis_keys_elem in Hin as (e & _ & Hm & _). congruence.
Qed.

Lemma setInCache_works key value ttl st :
  redisConnected st = true → head (redis_faults st) ≠ Some true →
  setInCache key value ttl st
  = (inr (), emit (EvRedis (SETEX key ttl value) true)
               (redis_done (redis_setEx (clock st) key ttl value (redis st)) st)).
Proof.
  intros Hc Hf. rewrite setInCache_run, Hc.
  by destruct (head (redis_faults st)) as [[]|].
Qed.

Lemma redis_get_setEx now now' key ttl value db :
  redis_get now' key (redis_setEx now key ttl value db)
  = if now' <? now + seconds ttl then Some value else None.
Proof. unfold redis_get, redis_setEx. by rewrite lookup_insert_eq. Qed.

Lemma redis_get_setEx_ne now now' key key' ttl value db :
  key ≠ key' →
  redis_get now' key' (redis_setEx now key ttl value db) = redis_get now' key' db.
Proof. intros Hne. unfold redis_get, redis_setEx. by rewrite lookup_insert_ne. Qed.

(** X2.  What [setInCache] stored, [getFromCache] gives back until the
    expiration and not after: with the client connected and both commands
    going through, a value set at time [t] for [ttl] seconds is read at
    [now'] exactly when [now' < t + ttl] seconds; any other key reads as
    before the set. *)
Theorem setInCache_getFromCache key key' value ttl st now' pgf rdf :
  redisConnected st = true → head (redis_faults st) ≠ Some true →
  head rdf ≠ Some true →
  let later := arrive now' pgf rdf (setInCache key value ttl st).2 in
  (getFromCache key later).1
  = inr (if now' <? clock st + seconds ttl then Some value else None)
  ∧ (key ≠ key' →
     (getFromCache key' later).1 = inr (redis_get now' key' (redis st))).
Proof.
  intros Hc Hf Hr later. subst later.
  rewrite (setInCache_works _ _ _ _ Hc Hf). cbn [snd].
  rewrite !getFromCache_value. unfold cache_read. simpl. rewrite Hc.
  destruct (head rdf) as [[]|]; try done.
  - split; [by rewrite redis_get_setEx|]. intros. by rewrite redis_get_setEx_ne.
  - split; [by rewrite redis_get_setEx|]. intros. by rewrite redis_get_setEx_ne.
Qed.


(** * More on the routes *)

Lemma getFromCache_redis_eq key st x st' :
  getFromCache key st = (x, st') → redis st' = redis st.
Proof.
  intros Hr. destruct (getFromCache_frame key st) as [_ Hd]. by rewrite Hr in Hd.
Qed.

Ltac effect_facts :=
  repeat match goal with
    | Hr : getFromCache _ _ = _ |- _ =>
        let Hs := fresh "Hs" in
        pose proof (getFromCache_store _ _ _ _ Hr) as Hs;
        apply getFromCache_redis_eq in Hr
    | Hr : setInCache _ _ _ _ = _ |- _ => apply setInCache_store in Hr
    | Hr : invalidateCache _ _ = _ |- _ => apply invalidateCache_store in Hr
    | Hr : select_by_id _ _ = inr _ |- _ => apply select_by_id_same in Hr
    | Hr : select_id_check _ _ = inr _ |- _ => apply select_id_check_same in Hr
    | Hr : delete_task _ _ = inr ([], _) |- _ => apply delete_task_none in Hr
    end.

Section more_routes.
Context `{PgInput}.

Local Opaque getFromCache setInCache invalidateCache.

Lemma handle_effect r st :
  returns (handle r) st
    (λ resp st', ((¬ is_write r ∨ ¬ success resp) → store st' = store st)
                 ∧ (¬ success resp → redis st' = redis st))
    (λ _ _, False).
Proof.
  destruct r; unfold handle, get_health, get_api_tasks, get_api_tasks_id,
    post_api_tasks, put_api_tasks_id, delete_api_tasks_id, get_api_stats,
    get_root.
  8: { apply returns_respond. by split. }
  all: apply returns_try_catch.
  all: eapply returns_mono
         with (E := λ e st', store st' = store st ∧ redis st' = redis st);
    [ | intros ? ? Hq; exact Hq
    | intros e st' [Hs Hr]; repeat returns_step; simpl; by split ].
  all: repeat (returns_step || (progress simplify_eq) || case_match).
  all: effect_facts; simpl in *; subst.
  all: try (split; congruence).
  all: split;
    [ intros [Hnw|Hns];
      [ try (exfalso; apply Hnw; exact I)
      | try (exfalso; apply Hns; unfold success; simpl; auto) ]
    | intros Hns; try (exfalso; apply Hns; unfold success; simpl; auto) ];
    congruence.
Qed.

(** X5.  Only a write that succeeds changes the table, and only a request
    that succeeds changes the key space: a GET of any route, and any request
    answered with 400, 404 or 500, leaves the table as it was; any request
    not answered with 200 or 201 leaves the key space as it was too. *)
Theorem no_effect_unless_success r st :
  ∃ resp st',
    handle r st = (inr resp, st')
    ∧ ((¬ is_write r ∨ ¬ success resp) → store st' = store st)
    ∧ (¬ success resp → redis st' = redis st).
Proof.
  pose proof (handle_effect r st) as Hr. unfold returns in Hr.
  destruct (handle r st) as [[e|resp] st']; [done|].
  by exists resp, st'.
Qed.

Lemma list_miss_redis st :
  head (pg_faults st) ≠ Some true →
  redisConnected st = true → redis_faults st !! 1%nat ≠ Some true →
  cache_read "tasks:all" st = None →
  redis (handle GET_api_tasks st).2
  = redis_setEx (clock st) "tasks:all" 60 (PList (select_all (store st))) (redis st).
Proof.
  intros Hpg Hc Hf Hm. simpl. rewrite (get_api_tasks_miss st Hm Hpg).
  apply miss_then_set; done.
Qed.

Lemma list_after_miss st st2 now' pgf rdf :
  head (pg_faults st) ≠ Some true →
  redisConnected st = true → redis_faults st !! 1%nat ≠ Some true →
  cache_read "tasks:all" st = None →
  redis st2 = redis (handle GET_api_tasks st).2 →
  redisConnected st2 = true → head rdf ≠ Some true →
  cache_read "tasks:all" (arrive now' pgf rdf st2)
  = if now' <? clock st + seconds 60
    then Some (PList (select_all (store st))) else None.
Proof.
  intros Hpg Hc Hf Hm Hr Hc2 Hrdf. unfold cache_read. simpl.
  rewrite Hc2, Hr, (list_miss_redis st Hpg Hc Hf Hm).
  destruct (head rdf) as [[]|]; try done; by rewrite redis_get_setEx.
Qed.

(** X3.  Once a list was served from the Store and cached, every list
    served while the entry is there and less than 60 seconds old answers
    that same list with [cached: true], whatever the table holds by then;
    from 60 seconds on the entry reads as absent and the list is served from
    the Store again. *)
Theorem list_cached_for_60_seconds st st2 now' pgf rdf :
  head (pg_faults st) ≠ Some true →
  redisConnected st = true → redis_faults st !! 1%nat ≠ Some true →
  cache_read "tasks:all" st = None →
  redis st2 = redis (handle GET_api_tasks st).2 →
  redisConnected st2 = true → head rdf ≠ Some true →
  let later := arrive now' pgf rdf st2 in
  (now' < clock st + seconds 60 →
   (handle GET_api_tasks later).1
   = inr {| status := 200;
            body := BData (Some (PList (select_all (store st)))) (Some true) |})
  ∧ (clock st + seconds 60 ≤ now' → head pgf ≠ Some true →
     (handle GET_api_tasks later).1
     = inr {| status := 200;
              body := BData (Some (PList (select_all (store st2)))) (Some false) |}).
Proof.
  intros Hpg Hc Hf Hm Hr Hc2 Hrdf later.
  pose proof (list_after_miss st st2 now' pgf rdf Hpg Hc Hf Hm Hr Hc2 Hrdf) as Hread.
  fold later in Hread. split.
  - intros Hlt. apply Z.ltb_lt in Hlt. rewrite Hlt in Hread.
    simpl. by rewrite (get_api_tasks_hit later _ Hread).
  - intros Hge Hpg2. apply Z.ltb_ge in Hge. rewrite Hge in Hread.
    simpl. by rewrite (get_api_tasks_miss later Hread Hpg2).
Qed.

(** X4.  The key of the list is also the key of the task whose id is the
    word [all]: while the cached list is less than 60 seconds old,
    GET /api/tasks/all answers 200 with the whole list as [data] and sends
    nothing to the Store. *)
Theorem get_all_answers_cached_list st st2 now' pgf rdf :
  head (pg_faults st) ≠ Some true →
  redisConnected st = true → redis_faults st !! 1%nat ≠ Some true →
  cache_read "tasks:all" st = None →
  redis st2 = redis (handle GET_api_tasks st).2 →
  redisConnected st2 = true → head rdf ≠ Some true →
  now' < clock st + seconds 60 →
  let later := arrive now' pgf rdf st2 in
  (handle (GET_api_tasks_id "all") later).1
  = inr {| status := 200;
           body := BData (Some (PList (select_all (store st)))) (Some true) |}
  ∧ pg_stmts (trace (handle (GET_api_tasks_id "all") later).2)
    = pg_stmts (trace st2).
Proof.
  intros Hpg Hc Hf Hm Hr Hc2 Hrdf Hlt later.
  pose proof (list_after_miss st st2 now' pgf rdf Hpg Hc Hf Hm Hr Hc2 Hrdf) as Hread.
  fold later in Hread. apply Z.ltb_lt in Hlt. rewrite Hlt in Hread.
  simpl. rewrite (get_api_tasks_id_hit "all" later _ Hread).
  split; [done|]. simpl.
  destruct (getFromCache_frame "tasks:all" later) as [[_ _ _ _ (evs & Ht & Hevs)] _].
  change ("tasks:" +:+ "all") with "tasks:all". rewrite Ht.
  unfold pg_stmts. rewrite !omap_app. simpl. rewrite !app_nil_r.
  replace (omap _ evs) with (@nil (Stmt * bool)); [by rewrite app_nil_r|].
  clear Ht. induction Hevs as [|e evs He _ IH]; [done|].
  simpl. by destruct e.
Qed.

End more_routes.


(** * More on the writes *)

Section more_writes.
Context `{PgInput}.

Local Opaque getFromCache setInCache invalidateCache.

Lemma truthy_falsy v : truthy v = false ↔ falsy v.
Proof.
  unfold falsy. split.
  - destruct v as [[|[]|n|s|?]|]; simpl; intros Hv; try done; auto 6.
    + apply negb_false_iff, Z.eqb_eq in Hv as ->. auto 6.
    + apply negb_false_iff, String.eqb_eq in Hv as ->. auto 6.
  - intros [->|[->|[->|[->| ->]]]]; done.
Qed.

(** X6.  POST /api/tasks answers 400 exactly when [title] is [undefined],
    [null], [false], [0] or the empty string, and then does nothing else;
    with any other title the INSERT is sent. *)
Theorem post_400_iff_falsy_title req_body st :
  ∃ resp st',
    handle (POST_api_tasks req_body) st = (inr resp, st')
    ∧ (status resp = 400 ↔ falsy (b_title req_body))
    ∧ (status resp = 400 → st' = emit (EvRespond resp) st)
    ∧ (status resp ≠ 400 →
       ∃ ok, (QInsert (insert_params req_body), ok) ∈ pg_stmts (trace st')).
Proof.
  destruct (post_paths req_body st) as [Ht Heq|msg Ht _ Heq|rows s' Ht _ _ Heq];
    simpl; rewrite Heq; eexists _, _; (split; [reflexivity|]); simpl;
    rewrite <- truthy_falsy.
  - split_and!; [by split | done | done].
  - split_and!; [split; [done | congruence] | done |].
    intros _. exists false. unfold pg_stmts. rewrite !omap_app. simpl.
    rewrite !elem_of_app, !list_elem_of_singleton. auto.
  - split_and!; [split; [done | congruence] | done |].
    intros _. exists true.
    destruct (invalidateCache_frame "tasks:*"
      (emit (EvPg (QInsert (insert_params req_body)) true) (pg_done s' st)))
      as [_ [_ _ _ _ (evs & Hevs & _)]].
    rewrite Hevs. simpl. unfold pg_stmts. rewrite !omap_app. simpl.
    rewrite !elem_of_app, !list_elem_of_singleton. auto.
Qed.

Lemma js_or_not_null d : prepareValue (Some (js_or d (JStr ""))) ≠ None.
Proof. by destruct d as [[|[]|n|s|?]|]; simpl; try destruct (_ =? _)%Z;
         try destruct (String.eqb _ _). Qed.

Lemma insert_task_description now req_body s rows s' :
  insert_task now (insert_params req_body) s = inr (rows, s') →
  ∃ t d,
    let r := {| title := t; description := Some d; completed := Some false;
                created_at := now; updated_at := now |} in
    rows = [(tasks_id_seq s, r)]
    ∧ s' = {| tasks := <[tasks_id_seq s := r]> (tasks s);
              tasks_id_seq := tasks_id_seq s + 1 |}.
Proof.
  unfold insert_task, insert_params. simpl. intros Hi.
  pose proof (js_or_not_null (b_description req_body)) as Hnn.
  unfold description_in in Hi.
  destruct (title_in (b_title req_body)) as [?|t]; [done|].
  destruct (prepareValue (Some (js_or (b_description req_body) (JStr ""))))
    as [sd|]; [|done].
  destruct (text_in sd) as [d|]; [|done].
  destruct (int4_max <? tasks_id_seq s); [done|].
  injection Hi as <- <-. by exists t, d.
Qed.

(** X7.  Whatever the body, the row of a 201 has the next value of the
    sequence as id, a description that is not NULL (an absent, null or
    otherwise falsy description was replaced by the empty string before the
    INSERT), [completed] false and both timestamps equal to the time of the
    request; the table afterwards is the table before plus that row, and the
    sequence has moved by one. *)
Theorem post_201_row req_body st resp st' :
  handle (POST_api_tasks req_body) st = (inr resp, st') →
  status resp = 201 →
  ∃ t d,
    let r := {| title := t; description := Some d; completed := Some false;
                created_at := clock st; updated_at := clock st |} in
    body resp = BData (Some (PTask (tasks_id_seq (store st), r))) None
    ∧ store st' = {| tasks := <[tasks_id_seq (store st) := r]> (tasks (store st));
                     tasks_id_seq := tasks_id_seq (store st) + 1 |}.
Proof.
  intros Hrun Hst. simpl in Hrun.
  destruct (post_paths req_body st) as [? Heq|msg ? ? Heq|rows s' ? ? Hi Heq];
    rewrite Hrun in Heq.
  - injection Heq as -> _. done.
  - injection Heq as -> _. done.
  - apply insert_task_description in Hi as (t & d & -> & ->).
    unfold answered in Heq. injection Heq as -> ->.
    exists t, d. split; [done|]. apply store_after_invalidate.
Qed.

Section put_row.
Local Opaque title_in description_in completed_in.

Lemma update_task_put id req_body now s :
  update_task now (updates (put_build req_body) ++ [SetNow])
    (paramCount (put_build req_body))
    (values (put_build req_body) ++ [Some (JStr id)]) s
  = match int4_in id with
    | None => inl "invalid input syntax for type integer"
    | Some k =>
        match tasks s !! k with
        | None => inr ([], s)
        | Some r =>
            match put_row req_body r with
            | inl e => inl e
            | inr r' =>
                inr ([(k, set_updated_at now r')],
                     {| tasks := <[k := set_updated_at now r']> (tasks s);
                        tasks_id_seq := tasks_id_seq s |})
            end
        end
    end.
Proof.
  destruct req_body as [[vt|] [vd|] [vc|]];
    unfold update_task, where_id, put_build, push_field, put_row, put_field;
    simpl; (destruct (int4_in id) as [k|]; [|done]);
    (destruct (tasks s !! k) as [r|]; [|done]); simpl;
    repeat (match goal with
            | |- context [title_in ?v] => destruct (title_in v); simpl
            | |- context [description_in ?v] => destruct (description_in v); simpl
            | |- context [completed_in ?v] => destruct (completed_in v); simpl
            end); reflexivity.
Qed.
End put_row.

Lemma put_field_keeps {A} field (read : option jsval → string + A) set r r'
    (f : Row → Z) :
  (∀ a r, f (set a r) = f r) →
  put_field field read set r = inr r' → f r' = f r.
Proof.
  unfold put_field. intros Hf Hp.
  destruct (defined field); [|by simplify_eq].
  destruct (read field); simplify_eq. apply Hf.
Qed.

Lemma put_row_frame req_body r r' :
  put_row req_body r = inr r' →
  created_at r' = created_at r ∧ updated_at r' = updated_at r
  ∧ (b_title req_body = None → title r' = title r)
  ∧ (b_description req_body = None → description r' = description r)
  ∧ (b_completed req_body = None → completed r' = completed r).
Proof.
  unfold put_row, put_field.
  destruct req_body as [t d c]; simpl. intros Hp.
  destruct t as [vt|], d as [vd|], c as [vc|]; simpl in Hp;
    repeat (match type of Hp with
            | context [title_in ?v] => destruct (title_in v); simpl in Hp
            | context [description_in ?v] => destruct (description_in v); simpl in Hp
            | context [completed_in ?v] => destruct (completed_in v); simpl in Hp
            end); simplify_eq; simpl; split_and!; done.
Qed.

(** The PUT handler on a row that exists, with at least one field and
    no failure of the connection: it answers by what [put_row] gives. *)
Lemma put_existing id k r req_body st :
  int4_in id = Some k → tasks (store st) !! k = Some r →
  none_rejects 2 (pg_faults st) → ¬ no_fields req_body →
  match put_row req_body r with
  | inl e =>
      ∃ st', handle (PUT_api_tasks_id id req_body) st
             = (inr {| status := 500; body := BThrown (PgError e) |}, st')
             ∧ store st' = store st ∧ redis st' = redis st
  | inr r0 =>
      let r' := set_updated_at (clock st) r0 in
      ∃ st', handle (PUT_api_tasks_id id req_body) st
             = (inr {| status := 200; body := BData (Some (PTask (k, r'))) None |},
                st')
             ∧ store st' = {| tasks := <[k := r']> (tasks (store st));
                              tasks_id_seq := tasks_id_seq (store st) |}
  end.
Proof.
  intros Hid Hrow [Hf1 Hf2]%none_rejects_2 Hnf.
  pose proof (update_task_put id req_body (clock st) (store st)) as Hup.
  rewrite Hid, Hrow in Hup.
  pose proof (select_id_check_int id k (store st) Hid) as Hsel.
  rewrite Hrow in Hsel.
  destruct (put_paths id req_body st)
    as [msg [?|?] Heq| ? Hc Heq|k' ks ? Hc ? Heq|k' ks msg ? ? ? [?|Hfail] Heq
       |k' ks rows s' ? ? ? ? Hup' Heq]; try congruence.
  - rewrite Hup in Hfail. destruct (put_row req_body r) as [e|r0]; [|done].
    injection Hfail as ->. simpl. rewrite Heq. by eexists.
  - rewrite Hup in Hup'. destruct (put_row req_body r) as [e|r0]; [done|].
    injection Hup' as <- <-. simpl. rewrite Heq. unfold answered.
    eexists. split; [reflexivity|]. apply store_after_invalidate.
Qed.

(** X8.  Whatever the values in the body, a PUT answered with 200 changed
    one row, the one of the id: its [created_at] is as before, its
    [updated_at] is the time of the request, every field absent from the
    body is as before; all other rows and the sequence are untouched. *)
Theorem put_200_frame id req_body st resp st' :
  handle (PUT_api_tasks_id id req_body) st = (inr resp, st') →
  status resp = 200 →
  ∃ k r r',
    int4_in id = Some k ∧ tasks (store st) !! k = Some r
    ∧ body resp = BData (Some (PTask (k, r'))) None
    ∧ store st' = {| tasks := <[k := r']> (tasks (store st));
                     tasks_id_seq := tasks_id_seq (store st) |}
    ∧ created_at r' = created_at r ∧ updated_at r' = clock st
    ∧ (b_title req_body = None → title r' = title r)
    ∧ (b_description req_body = None → description r' = description r)
    ∧ (b_completed req_body = None → completed r' = completed r).
Proof.
  intros Hrun Hst. simpl in Hrun.
  destruct (put_paths id req_body st)
    as [msg ? Heq| ? Hc Heq|k' ks ? Hc ? Heq|k' ks msg ? ? ? ? Heq
       |k' ks rows s' ? ? Hc ? Hup Heq]; rewrite Hrun in Heq;
    try (injection Heq as -> _; done).
  rewrite update_task_put in Hup.
  destruct (int4_in id) as [k|] eqn:Hid; [|done].
  destruct (tasks (store st) !! k) as [r|] eqn:Hrow.
  - destruct (put_row req_body r) as [e|r0] eqn:Hp; [done|].
    injection Hup as <- <-. unfold answered in Heq. injection Heq as -> ->.
    destruct (put_row_frame _ _ _ Hp) as (Hca & Hua & Ht & Hd & Hco).
    exists k, r, (set_updated_at (clock st) r0).
    split_and!; try done. apply store_after_invalidate.
  - rewrite (select_id_check_int _ _ _ Hid), Hrow in Hc. done.
Qed.

(** X9.  [title: null] passes the test [title !== undefined] and reaches the
    Store, where NOT NULL rejects it: on an existing id the answer is 500 and
    nothing has changed. *)
Theorem put_null_title_rejected id k r req_body st :
  int4_in id = Some k → tasks (store st) !! k = Some r →
  none_rejects 2 (pg_faults st) →
  b_title req_body = Some JNull →
  ∃ msg st',
    handle (PUT_api_tasks_id id req_body) st
    = (inr {| status := 500; body := BThrown (PgError msg) |}, st')
    ∧ store st' = store st ∧ redis st' = redis st.
Proof.
  intros Hid Hrow Hpg Ht.
  assert (¬ no_fields req_body) as Hnf by (intros [? _]; congruence).
  pose proof (put_existing id k r req_body st Hid Hrow Hpg Hnf) as Hput.
  unfold put_row, put_field in Hput. rewrite Ht in Hput. simpl in Hput.
  destruct Hput as (st' & ? & ? & ?). by eexists _, st'.
Qed.

(** X10.  [description: null] and [completed: null] pass the same test and
    the two columns accept NULL: on an existing id, with no title in the
    body, the answer is 200 and the row holds NULL in each of the two
    columns the body named. *)
Theorem put_null_is_stored id k r req_body st :
  int4_in id = Some k → tasks (store st) !! k = Some r →
  none_rejects 2 (pg_faults st) →
  b_title req_body = None →
  b_description req_body = None ∨ b_description req_body = Some JNull →
  b_completed req_body = None ∨ b_completed req_body = Some JNull →
  ¬ no_fields req_body →
  ∃ r' st',
    handle (PUT_api_tasks_id id req_body) st
    = (inr {| status := 200; body := BData (Some (PTask (k, r'))) None |}, st')
    ∧ tasks (store st') !! k = Some r'
    ∧ title r' = title r
    ∧ (b_description req_body = Some JNull → description r' = None)
    ∧ (b_completed req_body = Some JNull → completed r' = None).
Proof.
  intros Hid Hrow Hpg Ht Hd Hc Hnf.
  pose proof (put_existing id k r req_body st Hid Hrow Hpg Hnf) as Hput.
  unfold put_row, put_field in Hput. rewrite Ht in Hput.
  destruct Hd as [Hd|Hd], Hc as [Hc|Hc]; rewrite Hd, Hc in Hput; simpl in Hput;
    try (exfalso; apply Hnf; by split_and!);
    destruct Hput as (st' & Hrun & Hs); eexists _, st';
    (split; [exact Hrun|]); rewrite Hs; simpl; rewrite lookup_insert_eq;
    split_and!; try done; congruence.
Qed.

(** X11.  A PUT on an id of no row answers 404 whatever the body holds; the
    existence check is the only statement sent, nothing is invalidated,
    nothing has changed. *)
Theorem put_unknown_id_404 id k req_body st :
  int4_in id = Some k → tasks (store st) !! k = None →
  head (pg_faults st) ≠ Some true →
  ∃ st',
    handle (PUT_api_tasks_id id req_body) st
    = (inr {| status := 404; body := BError "Task not found" |}, st')
    ∧ store st' = store st ∧ redis st' = redis st
    ∧ trace st' = trace st ++
        [EvPg (put_check id) true;
         EvRespond {| status := 404; body := BError "Task not found" |}].
Proof.
  intros Hid Hrow Hf.
  pose proof (select_id_check_int id k (store st) Hid) as Hsel.
  rewrite Hrow in Hsel.
  destruct (put_paths id req_body st)
    as [msg [?|?] Heq| ? Hc Heq|k' ks ? Hc ? Heq|k' ks msg ? Hc ? ? Heq
       |k' ks rows s' ? ? Hc ? ? Heq]; try congruence.
  simpl. rewrite Heq. eexists. split; [reflexivity|]. simpl.
  by rewrite <- app_assoc.
Qed.

Lemma delete_task_int id k s :
  int4_in id = Some k →
  delete_task [Some (JStr id)] s
  = inr (match tasks s !! k with
         | Some _ => ([k], {| tasks := delete k (tasks s);
                              tasks_id_seq := tasks_id_seq s |})
         | None => ([], s)
         end).
Proof.
  intros Hid. unfold delete_task. rewrite (where_id_int _ _ Hid).
  by destruct (tasks s !! k).
Qed.

(** X12.  A DELETE on an existing id answers 200 with that id; the row is
    gone, every other row is as before and the sequence has not moved (the
    id is not handed out again); the invalidation comes after the statement
    and before the answer. *)
Theorem delete_existing id k r st :
  int4_in id = Some k → tasks (store st) !! k = Some r →
  head (pg_faults st) ≠ Some true →
  let resp := {| status := 200; body := BDeleted "Task deleted successfully" k |} in
  ∃ st' inval,
    handle (DELETE_api_tasks_id id) st = (inr resp, st')
    ∧ store st' = {| tasks := delete k (tasks (store st));
                     tasks_id_seq := tasks_id_seq (store st) |}
    ∧ tasks (store st') !! k = None
    ∧ (∀ k', k' ≠ k → tasks (store st') !! k' = tasks (store st) !! k')
    ∧ trace st' = trace st ++ [EvPg (delete_stmt id) true] ++ inval ++ [EvRespond resp]
    ∧ Forall is_cache_ev inval.
Proof.
  intros Hid Hrow Hf resp.
  pose proof (delete_task_int id k (store st) Hid) as Hdel.
  rewrite Hrow in Hdel.
  destruct (delete_paths id st) as [msg [?|?] Heq| ? ? Heq|k' ks s' ? Hd Heq];
    try congruence.
  rewrite Hdel in Hd. injection Hd as <- <- <-.
  simpl handle. rewrite Heq. unfold answered.
  destruct (invalidateCache_frame "tasks:*"
    (emit (EvPg (delete_stmt id) true)
       (pg_done {| tasks := delete k (tasks (store st));
                   tasks_id_seq := tasks_id_seq (store st) |} st)))
    as [_ [Hs _ _ _ (evs & Ht & Hevs)]].
  eexists _, evs. split; [reflexivity|]. simpl. rewrite Hs, Ht. simpl.
  split_and!; try done.
  - apply lookup_delete_eq.
  - intros k' Hne. by apply lookup_delete_ne.
  - by rewrite <- !app_assoc.
Qed.

(** X13.  An id that the Store does not read as an integer makes the
    statement fail: DELETE and PUT answer 500, and so does GET by id unless
    the cache holds something under that key; none of them is a 404, and
    nothing has changed. *)
Theorem non_integer_id_is_500 id st :
  int4_in id = None →
  (∃ msg st', handle (DELETE_api_tasks_id id) st
              = (inr {| status := 500; body := BThrown (PgError msg) |}, st')
              ∧ store st' = store st ∧ redis st' = redis st)
  ∧ (∀ req_body,
       ∃ msg st', handle (PUT_api_tasks_id id req_body) st
                  = (inr {| status := 500; body := BThrown (PgError msg) |}, st')
                  ∧ store st' = store st ∧ redis st' = redis st)
  ∧ (cache_read ("tasks:" +:+ id) st = None →
     ∃ msg, (handle (GET_api_tasks_id id) st).1
            = inr {| status := 500; body := BThrown (PgError msg) |}).
Proof.
  intros Hid.
  assert (where_id [Some (JStr id)] 1 = inl "invalid input syntax for type integer")
    as Hw by (unfold where_id; simpl; by rewrite Hid).
  split_and!.
  - destruct (delete_paths id st) as [msg _ Heq| ? Hd Heq|k' ks s' ? Hd Heq].
    + simpl. rewrite Heq. by eexists _, _.
    + unfold delete_task in Hd. by rewrite Hw in Hd.
    + unfold delete_task in Hd. by rewrite Hw in Hd.
  - intros req_body.
    destruct (put_paths id req_body st)
      as [msg _ Heq| ? Hc Heq|k' ks ? Hc ? Heq|k' ks msg ? Hc ? ? Heq
         |k' ks rows s' ? ? Hc ? ? Heq];
      try (unfold select_id_check in Hc; by rewrite Hw in Hc).
    simpl. rewrite Heq. by eexists _, _.
  - intros Hm. simpl. unfold get_api_tasks_id, try_catch. cbv zeta.
    rewrite get_then, Hm.
    unfold mbind at 1, M_bind at 1.
    destruct (pg_query_cases (QSelectById [Some (JStr id)])
                (λ now, select_by_id [Some (JStr id)])
                (getFromCache ("tasks:" +:+ id) st).2)
      as [(msg & _ & Hq)|(rows & s' & _ & Hs & _)].
    + rewrite Hq. by eexists.
    + unfold select_by_id in Hs. by rewrite Hw in Hs.
Qed.

End more_writes.


(** * Statistics and health *)

Lemma count_rows_split (l : list Task) :
  length l
  = (length (filter (λ kr : Task, is_completed kr.2 = true) l)
     + length (filter (λ kr : Task, is_pending kr.2 = true) l)
     + length (filter (λ kr : Task, is_null_completed kr.2 = true) l))%nat.
Proof.
  induction l as [|[k r] l IH]; [done|].
  rewrite !filter_cons. cbn [snd].
  assert (is_completed r = true ∧ is_pending r = false ∧ is_null_completed r = false
          ∨ is_completed r = false ∧ is_pending r = true ∧ is_null_completed r = false
          ∨ is_completed r = false ∧ is_pending r = false ∧ is_null_completed r = true)
    as [(-> & -> & ->)|[(-> & -> & ->)|(-> & -> & ->)]]
    by (unfold is_completed, is_pending, is_null_completed;
        destruct (completed r) as [[]|]; auto).
  all: repeat (case_decide; try done); cbn [length]; lia.
Qed.

Lemma count_rows_all (l : list Task) :
  filter (λ kr : Task, (λ _ : Row, true) kr.2 = true) l = l.
Proof.
  induction l as [|x l IH]; [done|].
  rewrite filter_cons. simpl. case_decide; [by rewrite IH | done].
Qed.

Lemma count_rows_none (p : Row → bool) (l : list Task) :
  (∀ kr, kr ∈ l → p kr.2 = false) →
  filter (λ kr : Task, p kr.2 = true) l = [].
Proof.
  induction l as [|x l IH]; [done|]. intros Hp.
  rewrite filter_cons. case_decide as Hx.
  - rewrite Hp in Hx; [done | left].
  - apply IH. intros kr Hin. apply Hp. by right.
Qed.

Section statistics.
Context `{PgInput}.

Lemma select_stats_counts s :
  total (select_stats s) = Z.of_nat (size (tasks s))
  ∧ total (select_stats s)
    = n_completed (select_stats s) + n_pending (select_stats s)
      + count_where is_null_completed s.
Proof.
  unfold select_stats, count_where. simpl. rewrite count_rows_all. split.
  - by rewrite length_map_to_list.
  - pose proof (count_rows_split (map_to_list (tasks s))) as Hs.
    apply (f_equal Z.of_nat) in Hs. rewrite !Nat2Z.inj_add in Hs. exact Hs.
Qed.

(** X14.  GET /api/stats, the Store answering, gives 200 with the counts of
    the table as it is and touches neither the table nor the cache.  [total]
    is the number of rows, and it is the sum of [completed], [pending] and
    the number of rows whose [completed] is NULL: the three counts add up
    when no row holds NULL there, and only then. *)
Theorem stats_counts st :
  head (pg_faults st) ≠ Some true →
  let s := select_stats (store st) in
  ∃ st',
    handle GET_api_stats st = (inr {| status := 200; body := BStats s |}, st')
    ∧ store st' = store st ∧ redis st' = redis st
    ∧ redis_cmds (trace st') = redis_cmds (trace st)
    ∧ total s = Z.of_nat (size (tasks (store st)))
    ∧ total s = n_completed s + n_pending s + count_where is_null_completed (store st)
    ∧ (total s = n_completed s + n_pending s
       ↔ ∀ k r, tasks (store st) !! k = Some r → completed r ≠ None).
Proof.
  intros Hf s.
  destruct (select_stats_counts (store st)) as [Hsize Hsum]. fold s in Hsize, Hsum.
  exists (emit (EvRespond {| status := 200; body := BStats s |})
            (emit (EvPg QStats true) (pg_done (store st) st))).
  split_and!; try done.
  - simpl. unfold get_api_stats, try_catch, mbind, M_bind, pg_query.
    destruct (head (pg_faults st)) as [[]|]; try done; by destruct s.
  - unfold redis_cmds. simpl. rewrite !omap_app. simpl. by rewrite !app_nil_r.
  - rewrite Hsum. unfold count_where. split.
    + intros Hz k r Hl Hnull.
      assert (length (filter (λ kr : Task, is_null_completed kr.2 = true)
                        (map_to_list (tasks (store st)))) = 0%nat) as Hlen by lia.
      apply length_zero_iff_nil in Hlen.
      assert ((k, r) ∈ filter (λ kr : Task, is_null_completed kr.2 = true)
                         (map_to_list (tasks (store st)))) as Hin.
      { apply list_elem_of_filter. split.
        - simpl. unfold is_null_completed. by rewrite Hnull.
        - by apply elem_of_map_to_list. }
      rewrite Hlen in Hin. by apply elem_of_nil in Hin.
    + intros Hnn. rewrite count_rows_none; [simpl; lia|].
      intros [k r] Hin. apply elem_of_map_to_list in Hin. simpl.
      unfold is_null_completed. specialize (Hnn k r Hin).
      by destruct (completed r).
Qed.

(** X15.  GET /health answers 200 as soon as [SELECT NOW()] goes through,
    whatever the cache does: [database] is then always [ok] and [cache] is
    [unavailable] when the client is disconnected, [error] when PING
    rejects, [ok] otherwise.  It answers 500 only when the statement fails.
    In no case does it change the table or the key space, and it sends PING
    only when the client is connected. *)
Theorem health_report st :
  (head (pg_faults st) ≠ Some true →
   (handle GET_health st).1
   = inr {| status := 200; body := BHealth "ok" (health_cache st) |})
  ∧ (head (pg_faults st) = Some true →
     ∃ e, (handle GET_health st).1
          = inr {| status := 500; body := BHealthError e |})
  ∧ store (handle GET_health st).2 = store st
  ∧ redis (handle GET_health st).2 = redis st
  ∧ (redisConnected st = false →
     redis_cmds (trace (handle GET_health st).2) = redis_cmds (trace st)).
Proof.
  simpl. unfold get_health, health_cache, try_catch, mbind, M_bind, pg_query,
    redis_call, gets, respond, mret, M_ret, redis_cmds.
  destruct (head (pg_faults st)) as [[]|] eqn:Hf; simpl;
    destruct (redisConnected st) eqn:Hc; simpl;
    try (destruct (head (redis_faults st)) as [[]|] eqn:Hr; simpl);
    split_and!; try done; try (by eexists);
    intros; rewrite ?omap_app; simpl; by rewrite ?app_nil_r.
Qed.

End statistics.


(** * Rows and their timestamps along a run *)

Lemma rows_kept_refl s : rows_kept s s.
Proof. split; [apply store_le_refl|]. intros _ k r' Hl _. by exists r'. Qed.

Lemma rows_kept_trans s1 s2 s3 :
  rows_kept s1 s2 → rows_kept s2 s3 → rows_kept s1 s3.
Proof.
  intros [Hle1 Hk1] [Hle2 Hk2]. split; [by eapply store_le_trans|].
  intros Hb k r3 Hl Hlt.
  destruct Hle1 as [Hseq Hb2]. specialize (Hb2 Hb).
  destruct (Hk2 Hb2 k r3 Hl) as (r2 & Hl2 & Hc2); [lia|].
  destruct (Hk1 Hb k r2 Hl2 Hlt) as (r1 & Hl1 & Hc1).
  exists r1. split; [done | congruence].
Qed.

Lemma times_ok_mono T T' s : T ≤ T' → times_ok T s → times_ok T' s.
Proof. intros Hle Hok k r Hl. destruct (Hok k r Hl). lia. Qed.

Section rows.
Context `{PgInput}.

Lemma apply_sets_created now vs cs r r' :
  apply_sets now vs cs r = inr r' → created_at r' = created_at r.
Proof.
  revert r. induction cs as [|c cs IH]; intros r Ha; simpl in Ha.
  - by simplify_eq.
  - destruct (apply_set now vs c r) as [e|r1] eqn:Hc; [done|].
    rewrite (IH _ Ha). unfold apply_set in Hc.
    repeat case_match; by simplify_eq.
Qed.

(** What a statement that went through may have done to the table. *)
Lemma insert_task_shape now vs s rows s' :
  insert_task now vs s = inr (rows, s') →
  ∃ r, created_at r = now ∧ updated_at r = now
       ∧ s' = {| tasks := <[tasks_id_seq s := r]> (tasks s);
                 tasks_id_seq := tasks_id_seq s + 1 |}.
Proof.
  intros Hi. apply insert_task_inv in Hi as (t & d & _ & ->).
  by exists {| title := t; description := d; completed := Some false;
               created_at := now; updated_at := now |}.
Qed.

Lemma update_task_shape now us n vs s rows s' :
  update_task now us n vs s = inr (rows, s') →
  s' = s
  ∨ ∃ k r r', tasks s !! k = Some r
              ∧ created_at r' = created_at r ∧ updated_at r' = now
              ∧ s' = {| tasks := <[k := r']> (tasks s);
                        tasks_id_seq := tasks_id_seq s |}.
Proof.
  unfold update_task. intros Hu. destruct us as [|u us0]; [done|].
  destruct (where_id vs n) as [?|[k|]]; simplify_eq; auto.
  destruct (tasks s !! k) as [r|] eqn:Hr; simplify_eq; auto.
  destruct (apply_sets now vs (u :: us0) r) as [?|r1] eqn:Ha; simplify_eq.
  right. exists k, r, (update_updated_at_column now r1).
  split_and!; try done. simpl. by eapply apply_sets_created.
Qed.

Lemma delete_task_shape vs s rows s' :
  delete_task vs s = inr (rows, s') →
  s' = s ∨ ∃ k, s' = {| tasks := delete k (tasks s);
                        tasks_id_seq := tasks_id_seq s |}.
Proof.
  unfold delete_task. intros Hd. repeat case_match; simplify_eq; eauto.
Qed.

(** The table after a request is the table before, or what the one INSERT,
    UPDATE or DELETE of the handler made of it at the time of the
    request. *)
Lemma handle_store_cases r st :
  store (handle r st).2 = store st
  ∨ (∃ vs rows, insert_task (clock st) vs (store st)
                = inr (rows, store (handle r st).2))
  ∨ (∃ us n vs rows, update_task (clock st) us n vs (store st)
                     = inr (rows, store (handle r st).2))
  ∨ (∃ vs rows, delete_task vs (store st) = inr (rows, store (handle r st).2)).
Proof.
  assert (∀ r, ¬ is_write r → store (handle r st).2 = store st) as Hnw.
  { intros r' Hw. pose proof (handle_effect r' st) as He. unfold returns in He.
    destruct (handle r' st) as [[e|resp] st']; [done|]. apply He. by left. }
  destruct r as [| | |req_body|id req_body|id| |];
    try (by left; apply Hnw; intros []); simpl.
  - destruct (post_paths req_body st) as [? Heq|msg ? ? Heq|rows s' ? ? Hi Heq];
      rewrite Heq; [by left | by left |].
    right; left. exists (insert_params req_body), rows.
    unfold answered. cbn [snd]. by rewrite store_after_invalidate.
  - destruct (put_paths id req_body st)
      as [msg ? Heq| ? Hc Heq|k' ks ? Hc ? Heq|k' ks msg ? ? ? ? Heq
         |k' ks rows s' ? ? Hc ? Hup Heq]; rewrite Heq; try by left.
    right; right; left. eexists _, _, _, rows.
    unfold answered. cbn [snd]. rewrite store_after_invalidate. exact Hup.
  - destruct (delete_paths id st) as [msg ? Heq| ? ? Heq|k ks s' ? Hd Heq];
      rewrite Heq; [by left | by left |].
    right; right; right. eexists _, _.
    unfold answered. cbn [snd]. rewrite store_after_invalidate. exact Hd.
Qed.

Lemma handle_rows_kept r st : rows_kept (store st) (store (handle r st).2).
Proof.
  split; [apply handle_store_le|]. intros Hb k r' Hl Hlt.
  destruct (handle_store_cases r st)
    as [Hs|[(vs & rows & Hi)|[(us & n & vs & rows & Hu)|(vs & rows & Hd)]]].
  - rewrite Hs in Hl. by exists r'.
  - apply insert_task_shape in Hi as (r0 & _ & _ & Hs). rewrite Hs in Hl.
    simpl in Hl. apply lookup_insert_Some in Hl as [[<- _]|[_ Hl]]; [lia|].
    by exists r'.
  - apply update_task_shape in Hu as [Hs|(k0 & r0 & r1 & Hr0 & Hc & _ & Hs)];
      rewrite Hs in Hl; [by exists r'|].
    simpl in Hl. apply lookup_insert_Some in Hl as [[<- <-]|[_ Hl]];
      [by exists r0 | by exists r'].
  - apply delete_task_shape in Hd as [Hs|(k0 & Hs)]; rewrite Hs in Hl;
      [by exists r'|].
    simpl in Hl. apply lookup_delete_Some in Hl as [_ Hl]. by exists r'.
Qed.

Lemma step_rows_kept st e : rows_kept (store st) (store (step st e)).
Proof.
  destruct e as [now pgf rdf r| |]; simpl; try apply rows_kept_refl.
  apply (handle_rows_kept r (arrive now pgf rdf st)).
Qed.

Lemma run_rows_kept es st : rows_kept (store st) (store (run st es)).
Proof.
  revert st. induction es as [|e es IH]; intros st; [apply rows_kept_refl|].
  simpl. eapply rows_kept_trans; [apply step_rows_kept | apply IH].
Qed.

(** X16.  Along any run of the server since the database was initialised,
    an id is never used twice and [created_at] never changes: a row found
    later under an id that the sequence had already handed out is the row
    that was there, created at the same time; so a row that was deleted, or
    an id that was skipped, never shows up again. *)
Theorem rows_never_come_back t0 db es es' k :
  let st1 := run (boot t0 db) es in
  let st2 := run st1 es' in
  k < tasks_id_seq (store st1) →
  match tasks (store st1) !! k with
  | Some r => ∀ r', tasks (store st2) !! k = Some r' → created_at r' = created_at r
  | None => tasks (store st2) !! k = None
  end.
Proof.
  intros st1 st2 Hlt.
  destruct (run_rows_kept es' st1) as [_ Hk].
  specialize (Hk (reachable_ids_below t0 db es)). fold st2 in Hk.
  destruct (tasks (store st1) !! k) as [r|] eqn:Hr.
  - intros r' Hl. destruct (Hk k r' Hl Hlt) as (r0 & Hr0 & Hc).
    fold st1 in Hr0. congruence.
  - destruct (tasks (store st2) !! k) as [r'|] eqn:Hl; [|done].
    destruct (Hk k r' Hl Hlt) as (r0 & Hr0 & _). fold st1 in Hr0. congruence.
Qed.

(** X17.  The ids of created tasks grow: of two creates answered with 201,
    whatever was served in between, the later one got the larger id. *)
Theorem created_ids_increase st es now pgf rdf b1 b2 resp1 st1 resp2 st2 :
  handle (POST_api_tasks b1) st = (inr resp1, st1) → status resp1 = 201 →
  handle (POST_api_tasks b2) (arrive now pgf rdf (run st1 es)) = (inr resp2, st2) →
  status resp2 = 201 →
  ∃ k1 r1 k2 r2,
    body resp1 = BData (Some (PTask (k1, r1))) None
    ∧ body resp2 = BData (Some (PTask (k2, r2))) None
    ∧ k1 < k2.
Proof.
  intros Hrun1 Hs1 Hrun2 Hs2. simpl in Hrun1, Hrun2.
  destruct (post_paths b1 st) as [? Heq|msg ? ? Heq|rows s' ? ? Hi Heq];
    rewrite Hrun1 in Heq; try (injection Heq as -> _; done).
  apply insert_task_inv in Hi as (t & d & -> & ->).
  unfold answered in Heq. injection Heq as -> Hst1.
  assert (tasks_id_seq (store st1) = tasks_id_seq (store st) + 1) as Hseq1.
  { rewrite Hst1. by rewrite store_after_invalidate. }
  destruct (post_paths b2 (arrive now pgf rdf (run st1 es)))
    as [? Heq|msg ? ? Heq|rows s' ? ? Hi Heq];
    rewrite Hrun2 in Heq; try (injection Heq as -> _; done).
  apply insert_task_inv in Hi as (t2 & d2 & -> & ->).
  unfold answered in Heq. injection Heq as -> _.
  eexists _, _, _, _. split; [reflexivity|]. split; [reflexivity|].
  pose proof (run_store_le es st1) as [Hle _]. simpl. lia.
Qed.

Lemma handle_times r st :
  times_ok (clock st) (store st) → times_ok (clock st) (store (handle r st).2).
Proof.
  intros Hok.
  destruct (handle_store_cases r st)
    as [Hs|[(vs & rows & Hi)|[(us & n & vs & rows & Hu)|(vs & rows & Hd)]]].
  - by rewrite Hs.
  - apply insert_task_shape in Hi as (r0 & Hc & Hu & Hs). rewrite Hs.
    intros k r' Hl. simpl in Hl.
    apply lookup_insert_Some in Hl as [[_ <-]|[_ Hl]]; [lia | by apply Hok in Hl].
  - apply update_task_shape in Hu as [Hs|(k0 & r0 & r1 & Hr0 & Hc & Hu & Hs)];
      rewrite Hs; [done|].
    intros k r' Hl. simpl in Hl.
    apply lookup_insert_Some in Hl as [[_ <-]|[_ Hl]]; [|by apply Hok in Hl].
    apply Hok in Hr0. lia.
  - apply delete_task_shape in Hd as [Hs|(k0 & Hs)]; rewrite Hs; [done|].
    intros k r' Hl. simpl in Hl.
    apply lookup_delete_Some in Hl as [_ Hl]. by apply Hok in Hl.
Qed.

Lemma run_times es t st :
  times_ok t (store st) → times_sorted t es →
  ∃ T, times_ok T (store (run st es)).
Proof.
  revert t st. induction es as [|e es IH]; intros t st Hok Hsorted; [by exists t|].
  destruct e as [now pgf rdf r| |]; simpl in *.
  - destruct Hsorted as [Hle Hsorted]. apply (IH now); [|done].
    apply (handle_times r (arrive now pgf rdf st)). simpl.
    by apply (times_ok_mono t).
  - by apply (IH t).
  - by apply (IH t).
Qed.

Lemma boot_times t0 db : times_ok t0 (store (boot t0 db)).
Proof.
  intros k r Hl. simpl in Hl.
  do 8 (apply lookup_insert_Some in Hl as [[_ <-]|[_ Hl]]; [simpl; lia|]).
  by rewrite lookup_empty in Hl.
Qed.

(** X18.  When the requests come at times that never go back, starting
    from the time the database was initialised, every row of the table has
    [created_at] at or before [updated_at], at every point of the run. *)
Theorem updated_at_not_before_created_at t0 db es k r :
  times_sorted t0 es →
  tasks (store (run (boot t0 db) es)) !! k = Some r →
  created_at r ≤ updated_at r.
Proof.
  intros Hsorted Hl.
  destruct (run_times es t0 (boot t0 db) (boot_times t0 db) Hsorted) as [T Hok].
  by destruct (Hok k r Hl) as [? _].
Qed.

Local Opaque getFromCache setInCache invalidateCache.

Lemma getFromCache_off key st :
  redisConnected st = false → getFromCache key st = (inr None, st).
Proof. intros Hc. by rewrite getFromCache_run, Hc. Qed.

Lemma setInCache_off key v ttl st :
  redisConnected st = false → setInCache key v ttl st = (inr (), st).
Proof. intros Hc. by rewrite setInCache_run, Hc. Qed.

Lemma invalidateCache_off p st :
  redisConnected st = false → invalidateCache p st = (inr (), st).
Proof. intros Hc. by rewrite invalidateCache_run, Hc. Qed.

Ltac helpers_off :=
  repeat match goal with
    | Hr : getFromCache ?k ?s = _ |- _ =>
        rewrite (getFromCache_off k s) in Hr by (simpl; assumption);
        simplify_eq
    | Hr : setInCache ?k ?v ?t ?s = _ |- _ =>
        rewrite (setInCache_off k v t s) in Hr by (simpl; assumption);
        simplify_eq
    | Hr : invalidateCache ?p ?s = _ |- _ =>
        rewrite (invalidateCache_off p s) in Hr by (simpl; assumption);
        simplify_eq
    end.

Lemma handle_off r st :
  redisConnected st = false →
  returns (handle r) st
    (λ _ st', redis st' = redis st
              ∧ redis_cmds (trace st') = redis_cmds (trace st))
    (λ _ _, False).
Proof.
  intros Hoff.
  destruct r; unfold handle, get_health, get_api_tasks, get_api_tasks_id,
    post_api_tasks, put_api_tasks_id, delete_api_tasks_id, get_api_stats,
    get_root.
  8: { apply returns_respond. split; [done|]. unfold redis_cmds. simpl.
       rewrite omap_app. simpl. by rewrite app_nil_r. }
  all: apply returns_try_catch.
  all: eapply returns_mono
         with (E := λ e st', redis st' = redis st
                             ∧ redis_cmds (trace st') = redis_cmds (trace st));
    [ | intros ? ? Hq; exact Hq
    | intros e st' [Hr Ht]; repeat returns_step; simpl; split; [done|];
      unfold redis_cmds in *; rewrite ?omap_app; simpl;
      rewrite ?app_nil_r; done ].
  all: repeat (returns_step || (progress simplify_eq) || case_match).
  all: helpers_off; simpl in *; try congruence.
  all: split; [done|]; unfold redis_cmds; rewrite ?omap_app; simpl;
    by rewrite ?app_nil_r.
Qed.

(** X19.  While [redisConnected] is false the Redis client is never called:
    whatever the request, no command is sent and the key space stays as it
    is; entries that were there are neither served, nor refreshed, nor
    invalidated. *)
Theorem disconnected_client_not_called r st :
  redisConnected st = false →
  redis (handle r st).2 = redis st
  ∧ redis_cmds (trace (handle r st).2) = redis_cmds (trace st).
Proof.
  intros Hoff. pose proof (handle_off r st Hoff) as Hr. unfold returns in Hr.
  by destruct (handle r st) as [[e|resp] st'].
Qed.

End rows.


(** * More on reading *)

Global Instance created_desc_trans : Transitive created_desc.
Proof. intros a b c. unfold created_desc. lia. Qed.

Section more_reads.
Context `{PgInput}.

Local Opaque getFromCache setInCache invalidateCache.

(** X20.  GET /api/tasks/:id on an id of no row, the cache holding nothing
    live under its key, answers 404 and caches nothing: a task that does not
    exist is looked up in the Store at every request. *)
Theorem get_unknown_id_404 id k st :
  int4_in id = Some k → tasks (store st) !! k = None →
  cache_read ("tasks:" +:+ id) st = None →
  head (pg_faults st) ≠ Some true →
  ∃ st',
    handle (GET_api_tasks_id id) st
    = (inr {| status := 404; body := BError "Task not found" |}, st')
    ∧ store st' = store st ∧ redis st' = redis st
    ∧ (QSelectById [Some (JStr id)], true) ∈ pg_stmts (trace st').
Proof.
  intros Hid Hrow Hm Hf. simpl. unfold get_api_tasks_id, try_catch. cbv zeta.
  rewrite get_then, Hm.
  destruct (getFromCache_frame ("tasks:" +:+ id) st)
    as [[Hs _ Hck Hpf _] Hr].
  unfold mbind at 1, M_bind at 1, pg_query. rewrite Hpf, Hs.
  unfold select_by_id. rewrite (where_id_int _ _ Hid). simpl. rewrite Hrow.
  destruct (head (pg_faults st)) as [[]|]; [done| |];
    (eexists; split; [reflexivity|]; simpl; split_and!; try done;
     unfold pg_stmts; rewrite !omap_app; simpl;
     rewrite !elem_of_app, !list_elem_of_singleton; auto).
Qed.

(** X21.  The trigger of the table: whatever columns the SET list of an
    UPDATE names, [updated_at] among them or not, the row it returns has
    [updated_at] equal to the time of the statement and the [created_at] it
    had, and that row is the one the table holds. *)
Theorem trigger_sets_updated_at now us n vs s k r' rows s' :
  update_task now us n vs s = inr ((k, r') :: rows, s') →
  ∃ r, tasks s !! k = Some r
       ∧ updated_at r' = now ∧ created_at r' = created_at r
       ∧ tasks s' !! k = Some r' ∧ rows = [].
Proof.
  unfold update_task. intros Hu. destruct us as [|u us0]; [done|].
  destruct (where_id vs n) as [?|[k0|]]; simplify_eq.
  destruct (tasks s !! k0) as [r|] eqn:Hr; simplify_eq.
  destruct (apply_sets now vs (u :: us0) r) as [?|r1] eqn:Ha; simplify_eq.
  exists r. split_and!; try done.
  - simpl. by eapply apply_sets_created.
  - simpl. apply lookup_insert_eq.
Qed.

Lemma select_all_head s k r :
  tasks s !! k = Some r →
  (∀ k' r', k' ≠ k → tasks s !! k' = Some r' → created_at r' < created_at r) →
  ∃ rest, select_all s = (k, r) :: rest.
Proof.
  intros Hl Hlate. unfold select_all.
  pose proof (merge_sort_Permutation created_desc (map_to_list (tasks s))) as Hperm.
  pose proof (StronglySorted_merge_sort created_desc (map_to_list (tasks s))) as Hsorted.
  assert ((k, r) ∈ merge_sort created_desc (map_to_list (tasks s))) as Hin.
  { rewrite Hperm. by apply elem_of_map_to_list. }
  destruct (merge_sort created_desc (map_to_list (tasks s))) as [|[k0 r0] rest];
    [by apply elem_of_nil in Hin|].
  exists rest. f_equal.
  assert (tasks s !! k0 = Some r0) as Hl0.
  { apply elem_of_map_to_list. rewrite <- Hperm. left. }
  destruct (decide (k0 = k)) as [->|Hne]; [congruence|].
  exfalso. specialize (Hlate k0 r0 Hne Hl0).
  apply elem_of_cons in Hin as [Heq|Hin]; [congruence|].
  apply StronglySorted_inv in Hsorted as [_ Hall].
  rewrite Forall_forall in Hall. specialize (Hall _ Hin).
  unfold created_desc in Hall. simpl in Hall. lia.
Qed.

(** X22.  A task created later than every row of the table comes first in
    the list: after such a create, a list served from the Store starts with
    the created task. *)
Theorem created_task_is_listed_first req_body st resp st' now' pgf rdf b :
  handle (POST_api_tasks req_body) st = (inr resp, st') →
  status resp = 201 →
  (∀ k r, tasks (store st) !! k = Some r → created_at r < clock st) →
  let later := arrive now' pgf rdf (set_redisConnected b st') in
  cache_read "tasks:all" later = None → head pgf ≠ Some true →
  ∃ task rest,
    body resp = BData (Some (PTask task)) None
    ∧ (handle GET_api_tasks later).1
      = inr {| status := 200;
               body := BData (Some (PList (task :: rest))) (Some false) |}.
Proof.
  intros Hrun Hst Hold later Hm Hpg. simpl in Hrun.
  destruct (post_paths req_body st) as [? Heq|msg ? ? Heq|rows s' ? ? Hi Heq];
    rewrite Hrun in Heq; try (injection Heq as -> _; done).
  apply insert_task_inv in Hi as (t & d & -> & ->).
  unfold answered in Heq. injection Heq as -> Hst'.
  set (k := tasks_id_seq (store st)) in *.
  set (r := {| title := t; description := d; completed := Some false;
               created_at := clock st; updated_at := clock st |}) in *.
  assert (store st' = {| tasks := <[k := r]> (tasks (store st));
                         tasks_id_seq := k + 1 |}) as Hs.
  { rewrite Hst'. apply store_after_invalidate. }
  destruct (select_all_head (store st') k r) as [rest Hall].
  { rewrite Hs. simpl. apply lookup_insert_eq. }
  { rewrite Hs. simpl. intros k' r' Hne Hl.
    rewrite lookup_insert_ne in Hl by done. by apply Hold in Hl. }
  exists (k, r), rest. split; [done|].
  simpl. rewrite (get_api_tasks_miss later Hm Hpg). simpl. by rewrite Hall.
Qed.

End more_reads.


(** * C6, C7: the update and the create, whatever the body holds *)

Section full_writes.
Context `{PgInput}.

Local Opaque getFromCache setInCache invalidateCache.


Section fields.
Local Opaque title_in description_in completed_in.


End fields.






End full_writes.



(** * Runs of the server *)

(** The scenario of the specification: create, complete, delete, get. *)
Example create_complete_delete_get :
  let st := run (boot 0 ∅)
              [Http 5 [] [] (POST_api_tasks ex_body);
               Http 6 [] [] (PUT_api_tasks_id "9" (only_completed (JBool true)));
               Http 7 [] [] (DELETE_api_tasks_id "9");
               Http 8 [] [] (GET_api_tasks_id "9")] in
  omap (λ e, match e with EvRespond r => Some r | _ => None end) (trace st)
  = [ {| status := 201; body := BData (Some (PTask (9, ex_row))) None |};
      {| status := 200;
         body := BData (Some (PTask (9, {| title := "Buy milk";
                                           description := Some "";
                                           completed := Some true;
                                           created_at := 5;
                                           updated_at := 6 |}))) None |};
      {| status := 200; body := BDeleted "Task deleted successfully" 9 |};
      {| status := 404; body := BError "Task not found" |} ].
Proof. vm_compute. reflexivity. Qed.

Lemma cache_failures_absorbed_witness :
  let st := arrive 5 [] [true] (set_redisConnected true (boot 0 ∅)) in
  cache_fails st
  ∧ (handle GET_api_tasks st).1
    = inr {| status := 200;
             body := BData (Some (PList (select_all (store st)))) (Some false) |}.
Proof.
  split; [by right|].
  apply (proj1 (proj2 (proj2 (proj2 cache_failures_absorbed)))); [by right | done].
Defined.

Lemma write_then_invalidate_then_respond_witness :
  let w := POST_api_tasks ex_body in
  let out := handle w ex_cached in
  let row := {| title := "Buy milk"; description := Some "";
                completed := Some false; created_at := 6; updated_at := 6 |} in
  let next := handle GET_api_tasks
                (arrive 7 [] [] (set_redisConnected true out.2)) in
  is_write w ∧ success (response_of out)
  ∧ cache_read "tasks:all" ex_cached = Some (PList (select_all (store ex_cached)))
  ∧ (DEL ["tasks:all"], true) ∈ redis_cmds (trace out.2)
  ∧ ordered_write ex_cached (response_of out) out.2
  ∧ redis_get 7 "tasks:all" (redis out.2) = None
  ∧ tasks (store out.2) !! 9 = Some row
  ∧ next.1
    = inr {| status := 200;
             body := BData (Some (PList (select_all (store out.2)))) (Some false) |}.
Proof.
  intros w out row next.
  assert (out = (inr (response_of out), out.2)) as Hrun
    by (vm_compute; reflexivity).
  assert (success (response_of out)) as Hok by (right; vm_compute; reflexivity).
  assert (redisConnected ex_cached = true) as Hc by (vm_compute; reflexivity).
  assert (none_rejects 2 (redis_faults ex_cached)) as Hn by constructor.
  split; [exact I|]. split; [exact Hok|].
  split; [vm_compute; reflexivity|].
  split; [vm_compute; repeat constructor|].
  destruct (write_then_invalidate_then_respond w ex_cached _ _ I Hrun Hok)
    as [Hord Hfresh].
  destruct (Hfresh Hc Hn) as [Hinv Hreads].
  split; [exact Hord|].
  split; [apply Hinv; [discriminate | reflexivity]|].
  split; [vm_compute; reflexivity|].
  apply (Hreads 7 [] [] true); discriminate.
Defined.

(** C1, against the claim as stated.  The list is cached.  A create then
    succeeds while the invalidation does nothing, once because KEYS rejects
    and once because the client is disconnected at that moment; the list
    served next, the client connected and no command failing, is the cached
    one, without the new task. *)
Lemma stale_list_after_failed_invalidation :
  let st1 := run (boot 0 ∅) [RedisConnect; Http 1 [] [] GET_api_tasks] in
  let stale := {| status := 200;
                  body := BData (Some (PList (select_all (init_store 0))))
                            (Some true) |} in
  let created := {| status := 201;
                    body := BData (Some (PTask (9, ex_row))) None |} in
  ((9, ex_row) ∉ select_all (init_store 0))
  ∧ (let write := handle (POST_api_tasks ex_body) (arrive 5 [] [true] st1) in
     let read := handle GET_api_tasks (arrive 6 [] [] write.2) in
     write.1 = inr created
     ∧ tasks (store write.2) !! 9 = Some ex_row
     ∧ read.1 = inr stale)
  ∧ (let write := handle (POST_api_tasks ex_body)
                    (arrive 5 [] [] (step st1 RedisClientError)) in
     let read := handle GET_api_tasks (arrive 6 [] [] (step write.2 RedisConnect)) in
     write.1 = inr created
     ∧ tasks (store write.2) !! 9 = Some ex_row
     ∧ read.1 = inr stale).
Proof.
  intros st1 stale created. split; [|split].
  - intros Hin. apply (list_elem_of_fmap_2 fst) in Hin. vm_compute in Hin.
    repeat (apply elem_of_cons in Hin as [Hin|Hin]; [discriminate|]).
    by apply elem_of_nil in Hin.
  - cbv zeta. split_and!; vm_compute; reflexivity.
  - cbv zeta. split_and!; vm_compute; reflexivity.
Qed.

(** C3.  After [PUT /api/tasks/1 {"completed": null}] the statistics count
    eight tasks, none completed and seven pending. *)
Theorem stats_with_null_completed :
  let st := run (boot 0 ∅)
              [Http 5 [] [] (PUT_api_tasks_id "1" (only_completed JNull))] in
  (handle GET_api_stats (arrive 6 [] [] st)).1
  = inr {| status := 200;
           body := BStats {| total := 8; n_completed := 0; n_pending := 7 |} |}
  ∧ completed <$> tasks (store st) !! 1 = Some None.
Proof. split; vm_compute; reflexivity. Qed.

(** C4.  [PUT /api/tasks/1 {"title": ""}] answers 200 and leaves row 1 with
    the empty title. *)
Theorem put_empty_title :
  let out := handle (PUT_api_tasks_id "1" (only_title (JStr ""))) ex_st in
  (∃ r, out.1 = inr {| status := 200; body := BData (Some (PTask (1, r))) None |}
        ∧ title r = "")
  ∧ title <$> tasks (store out.2) !! 1 = Some "".
Proof.
  split; [|vm_compute; reflexivity].
  eexists. split; vm_compute; reflexivity.
Qed.

(** C5, against the claim as stated: with no field and an id of no row the
    answer is 404, and the Store was asked before anything was reported. *)
Lemma put_without_fields_unknown_id :
  let out := handle (PUT_api_tasks_id "999" no_body) ex_st in
  out.1 = inr {| status := 404; body := BError "Task not found" |}
  ∧ trace out.2 = [EvPg (put_check "999") true;
                   EvRespond {| status := 404; body := BError "Task not found" |}].
Proof. split; vm_compute; reflexivity. Qed.

Lemma put_without_fields_witness :
  no_fields no_body
  ∧ ∃ st', handle (PUT_api_tasks_id "1" no_body) ex_st
           = (inr {| status := 400; body := BError "No fields to update" |}, st')
           ∧ store st' = store ex_st.
Proof.
  assert (no_fields no_body) as Hnf by (by split_and!).
  split; [exact Hnf|].
  destruct (put_without_fields "1" no_body ex_st Hnf)
    as (resp & st' & ok & logs & Hrun & Hs & _ & _ & _ & _ & Hresp).
  destruct (Hresp 1 eq_refl) as [_ ->]; [done|].
  exists st'. split; [exact Hrun | exact Hs].
Defined.






Lemma delete_absent_no_effect_witness :
  cache_read "tasks:all" ex_cached ≠ None
  ∧ (∃ st', handle (DELETE_api_tasks_id "999") ex_cached
            = (inr {| status := 404; body := BError "Task not found" |}, st')
            ∧ store st' = store ex_cached ∧ redis st' = redis ex_cached)
  ∧ (∃ msg st', handle (DELETE_api_tasks_id "abc") ex_cached
                = (inr {| status := 500; body := BThrown (PgError msg) |}, st')
                ∧ store st' = store ex_cached ∧ redis st' = redis ex_cached).
Proof.
  assert (int4_in "999" = Some 999) as Hid by reflexivity.
  assert (int4_in "abc" = None) as Hid' by reflexivity.
  assert (head (pg_faults ex_cached) ≠ Some true) as Hpg by discriminate.
  split; [vm_compute; discriminate|]. split.
  - assert (∀ k, int4_in "999" = Some k → tasks (store ex_cached) !! k = None)
      as Habs.
    { intros k Hk. rewrite Hid in Hk. injection Hk as <-.
      vm_compute. reflexivity. }
    destruct (delete_absent_no_effect "999" ex_cached Habs)
      as (resp & st' & ok & logs & Hrun & Hs & Hr & _ & _ & _ & Hcase).
    specialize (Hcase Hpg). rewrite Hid in Hcase.
    destruct Hcase as (_ & _ & ->).
    exists st'. split; [exact Hrun|]. split; [exact Hs | exact Hr].
  - assert (∀ k, int4_in "abc" = Some k → tasks (store ex_cached) !! k = None)
      as Habs.
    { intros k Hk. rewrite Hid' in Hk. discriminate Hk. }
    destruct (delete_absent_no_effect "abc" ex_cached Habs)
      as (resp & st' & ok & logs & Hrun & Hs & Hr & _ & _ & H500 & Hcase).
    specialize (Hcase Hpg). rewrite Hid' in Hcase.
    destruct (H500 Hcase) as [msg ->].
    exists msg, st'. split; [exact Hrun|]. split; [exact Hs | exact Hr].
Defined.

(** C9, against the claim as stated.  No row has an id that reads [abc],
    nor the id 2147483648, which is past the range of the column; a DELETE on
    either is answered 500, not 404. *)
Lemma delete_non_integer_id :
  let out := handle (DELETE_api_tasks_id "abc") ex_st in
  let out' := handle (DELETE_api_tasks_id "2147483648") ex_st in
  (∃ msg, out.1 = inr {| status := 500; body := BThrown (PgError msg) |})
  ∧ (∃ msg, out'.1 = inr {| status := 500; body := BThrown (PgError msg) |})
  ∧ tasks (store ex_st) !! 2147483648 = None
  ∧ store out.2 = store ex_st ∧ store out'.2 = store ex_st.
Proof.
  cbv zeta. split; [eexists; vm_compute; reflexivity|].
  split; [eexists; vm_compute; reflexivity|].
  split_and!; vm_compute; reflexivity.
Qed.

Lemma post_ignores_completed_witness :
  let req_body := with_completed (Some (JBool true)) ex_body in
  status ((λ r, match r with inr resp => resp | inl _ => {| status := 0; body := BRoot |} end)
            (handle (POST_api_tasks req_body) ex_st).1) = 201
  ∧ ∃ k r, tasks (store (handle (POST_api_tasks req_body) ex_st).2) !! k = Some r
           ∧ completed r = Some false.
Proof.
  intros req_body. split; [vm_compute; reflexivity|].
  destruct (proj2 (post_ignores_completed ex_body (Some (JBool true)) ex_st)
              {| status := 201; body := BData (Some (PTask (9, ex_row))) None |}
              (handle (POST_api_tasks req_body) ex_st).2)
    as (k & r & _ & Hc & Hl); [vm_compute; reflexivity | reflexivity |].
  exists k, r. split; [exact Hl | exact Hc].
Defined.

(** ** Runs for the further properties *)

Lemma invalidateCache_removes_tasks_keys_witness :
  redisConnected ex_cached = true
  ∧ redis_get 6 "tasks:all" (redis ex_cached) ≠ None
  ∧ let st' := (invalidateCache "tasks:*" ex_cached).2 in
    store st' = store ex_cached
    ∧ redis_get 7 "tasks:all" (redis st') = None.
Proof.
  assert (redisConnected ex_cached = true) as Hc by (vm_compute; reflexivity).
  assert (none_rejects 2 (redis_faults ex_cached)) as Hn by constructor.
  split; [exact Hc|]. split; [vm_compute; discriminate|].
  destruct (invalidateCache_removes_tasks_keys ex_cached Hc Hn) as [Hs Hk].
  split; [exact Hs|]. apply (Hk "tasks:all"). discriminate.
Defined.

Lemma setInCache_getFromCache_witness :
  let later := arrive 10 [] [] (setInCache "tasks:7" (PList []) 300 ex_st).2 in
  (getFromCache "tasks:7" later).1 = inr (Some (PList []))
  ∧ (getFromCache "tasks:8" later).1 = inr None.
Proof.
  assert (redisConnected ex_st = true) as Hc by reflexivity.
  assert (head (redis_faults ex_st) ≠ Some true) as Hf by discriminate.
  assert (head (@nil bool) ≠ Some true) as Hr by discriminate.
  destruct (setInCache_getFromCache "tasks:7" "tasks:8" (PList []) 300 ex_st
              10 [] [] Hc Hf Hr) as [Hsame Hother].
  split; [exact Hsame|]. apply Hother. discriminate.
Defined.

Lemma list_cached_for_60_seconds_witness :
  let st2 := (handle GET_api_tasks ex_st).2 in
  (handle GET_api_tasks (arrive 6 [] [] st2)).1
  = inr {| status := 200;
           body := BData (Some (PList (select_all (store ex_st)))) (Some true) |}
  ∧ (handle GET_api_tasks (arrive 60000005 [] [] st2)).1
    = inr {| status := 200;
             body := BData (Some (PList (select_all (store st2)))) (Some false) |}.
Proof.
  intros st2.
  assert (head (pg_faults ex_st) ≠ Some true) as Hpg by discriminate.
  assert (redisConnected ex_st = true) as Hc by reflexivity.
  assert (redis_faults ex_st !! 1%nat ≠ Some true) as Hf by discriminate.
  assert (cache_read "tasks:all" ex_st = None) as Hm by reflexivity.
  assert (redisConnected st2 = true) as Hc2 by (vm_compute; reflexivity).
  assert (head (@nil bool) ≠ Some true) as Hr by discriminate.
  split.
  - apply (list_cached_for_60_seconds ex_st st2 6 [] [] Hpg Hc Hf Hm eq_refl Hc2 Hr).
    reflexivity.
  - apply (list_cached_for_60_seconds ex_st st2 60000005 [] [] Hpg Hc Hf Hm
             eq_refl Hc2 Hr); [discriminate | discriminate].
Defined.

Lemma get_all_answers_cached_list_witness :
  let st2 := (handle GET_api_tasks ex_st).2 in
  int4_in "all" = None
  ∧ (handle (GET_api_tasks_id "all") (arrive 6 [] [] st2)).1
    = inr {| status := 200;
             body := BData (Some (PList (select_all (store ex_st)))) (Some true) |}.
Proof.
  intros st2. split; [reflexivity|].
  assert (head (pg_faults ex_st) ≠ Some true) as Hpg by discriminate.
  assert (redisConnected ex_st = true) as Hc by reflexivity.
  assert (redis_faults ex_st !! 1%nat ≠ Some true) as Hf by discriminate.
  assert (cache_read "tasks:all" ex_st = None) as Hm by reflexivity.
  assert (redisConnected st2 = true) as Hc2 by (vm_compute; reflexivity).
  assert (head (@nil bool) ≠ Some true) as Hr by discriminate.
  assert (6 < clock ex_st + seconds 60) as Hlt by reflexivity.
  exact (proj1 (get_all_answers_cached_list ex_st st2 6 [] [] Hpg Hc Hf Hm
                  eq_refl Hc2 Hr Hlt)).
Defined.

Lemma post_201_row_witness :
  let out := handle (POST_api_tasks (only_title (JNum 7))) ex_st in
  status (response_of out) = 201
  ∧ ∃ t d, tasks (store out.2) !! 9
           = Some {| title := t; description := Some d; completed := Some false;
                     created_at := 5; updated_at := 5 |}.
Proof.
  intros out.
  assert (out = (inr (response_of out), out.2)) as Hrun by (vm_compute; reflexivity).
  assert (status (response_of out) = 201) as Hst by (vm_compute; reflexivity).
  split; [exact Hst|].
  destruct (post_201_row (only_title (JNum 7)) ex_st _ _ Hrun Hst)
    as (t & d & _ & Hs).
  exists t, d. rewrite Hs. apply lookup_insert_eq.
Defined.

Lemma put_200_frame_witness :
  let out := handle (PUT_api_tasks_id "1" (only_completed (JBool true))) ex_st in
  status (response_of out) = 200
  ∧ ∃ r', tasks (store out.2) !! 1 = Some r'
          ∧ title r' = title ex_sample ∧ description r' = description ex_sample
          ∧ created_at r' = 0 ∧ updated_at r' = 5.
Proof.
  intros out.
  assert (out = (inr (response_of out), out.2)) as Hrun by (vm_compute; reflexivity).
  assert (status (response_of out) = 200) as Hst by (vm_compute; reflexivity).
  split; [exact Hst|].
  destruct (put_200_frame "1" (only_completed (JBool true)) ex_st _ _ Hrun Hst)
    as (k & r & r' & Hid & Hrow & _ & Hs & Hc & Hu & Ht & Hd & _).
  assert (k = 1) as -> by (by injection Hid).
  assert (r = ex_sample) as -> by (by injection Hrow).
  exists r'. rewrite Hs. split; [apply lookup_insert_eq|].
  split; [by apply Ht|]. split; [by apply Hd|]. split; [exact Hc | exact Hu].
Defined.

Lemma put_null_title_rejected_witness :
  ∃ msg st',
    handle (PUT_api_tasks_id "1" (only_title JNull)) ex_st
    = (inr {| status := 500; body := BThrown (PgError msg) |}, st')
    ∧ store st' = store ex_st.
Proof.
  assert (int4_in "1" = Some 1) as Hid by reflexivity.
  assert (tasks (store ex_st) !! 1 = Some ex_sample) as Hrow by reflexivity.
  assert (none_rejects 2 (pg_faults ex_st)) as Hpg by constructor.
  destruct (put_null_title_rejected "1" 1 ex_sample (only_title JNull) ex_st
              Hid Hrow Hpg eq_refl) as (msg & st' & Hrun & Hs & _).
  exists msg, st'. split; [exact Hrun | exact Hs].
Defined.

Lemma put_null_is_stored_witness :
  ∃ r' st',
    handle (PUT_api_tasks_id "1" (only_completed JNull)) ex_st
    = (inr {| status := 200; body := BData (Some (PTask (1, r'))) None |}, st')
    ∧ tasks (store st') !! 1 = Some r'
    ∧ completed r' = None.
Proof.
  assert (int4_in "1" = Some 1) as Hid by reflexivity.
  assert (tasks (store ex_st) !! 1 = Some ex_sample) as Hrow by reflexivity.
  assert (none_rejects 2 (pg_faults ex_st)) as Hpg by constructor.
  assert (¬ no_fields (only_completed JNull)) as Hnf by (by intros (_ & _ & [=])).
  destruct (put_null_is_stored "1" 1 ex_sample (only_completed JNull) ex_st
              Hid Hrow Hpg eq_refl (or_introl eq_refl) (or_intror eq_refl) Hnf)
    as (r' & st' & Hrun & Hl & _ & _ & Hc).
  exists r', st'. split; [exact Hrun|]. split; [exact Hl | by apply Hc].
Defined.

Lemma put_unknown_id_404_witness :
  ∃ st',
    handle (PUT_api_tasks_id "999" (only_completed (JBool true))) ex_st
    = (inr {| status := 404; body := BError "Task not found" |}, st')
    ∧ store st' = store ex_st ∧ redis st' = redis ex_st.
Proof.
  assert (int4_in "999" = Some 999) as Hid by reflexivity.
  assert (tasks (store ex_st) !! 999 = None) as Hrow by reflexivity.
  assert (head (pg_faults ex_st) ≠ Some true) as Hpg by discriminate.
  destruct (put_unknown_id_404 "999" 999 (only_completed (JBool true)) ex_st
              Hid Hrow Hpg) as (st' & Hrun & Hs & Hr & _).
  exists st'. split; [exact Hrun|]. split; [exact Hs | exact Hr].
Defined.

Lemma delete_existing_witness :
  ∃ st',
    handle (DELETE_api_tasks_id "1") ex_st
    = (inr {| status := 200; body := BDeleted "Task deleted successfully" 1 |}, st')
    ∧ tasks (store st') !! 1 = None
    ∧ tasks (store st') !! 2 = tasks (store ex_st) !! 2.
Proof.
  assert (int4_in "1" = Some 1) as Hid by reflexivity.
  assert (tasks (store ex_st) !! 1 = Some ex_sample) as Hrow by reflexivity.
  assert (head (pg_faults ex_st) ≠ Some true) as Hpg by discriminate.
  destruct (delete_existing "1" 1 ex_sample ex_st Hid Hrow Hpg)
    as (st' & inval & Hrun & _ & Hgone & Hothers & _).
  exists st'. split; [exact Hrun|]. split; [exact Hgone|].
  apply Hothers. discriminate.
Defined.

Lemma non_integer_id_is_500_witness :
  int4_in "abc" = None
  ∧ ∃ msg st', handle (DELETE_api_tasks_id "abc") ex_st
               = (inr {| status := 500; body := BThrown (PgError msg) |}, st')
               ∧ store st' = store ex_st.
Proof.
  assert (int4_in "abc" = None) as Hid by reflexivity.
  split; [exact Hid|].
  destruct (proj1 (non_integer_id_is_500 "abc" ex_st Hid))
    as (msg & st' & Hrun & Hs & _).
  exists msg, st'. split; [exact Hrun | exact Hs].
Defined.

Lemma stats_counts_witness :
  head (pg_faults ex_st) ≠ Some true
  ∧ ∃ st', handle GET_api_stats ex_st
           = (inr {| status := 200; body := BStats (select_stats (store ex_st)) |}, st')
           ∧ total (select_stats (store ex_st)) = 8.
Proof.
  assert (head (pg_faults ex_st) ≠ Some true) as Hpg by discriminate.
  split; [exact Hpg|].
  destruct (stats_counts ex_st Hpg) as (st' & Hrun & _ & _ & _ & Hsize & _).
  exists st'. split; [exact Hrun|]. rewrite Hsize. vm_compute. reflexivity.
Defined.

Lemma health_report_witness :
  let st := arrive 5 [] [true] (set_redisConnected true (boot 0 ∅)) in
  (handle GET_health st).1
  = inr {| status := 200; body := BHealth "ok" "error" |}.
Proof.
  intros st. apply (proj1 (health_report st)). discriminate.
Defined.

Lemma rows_never_come_back_witness :
  let st1 := run (boot 0 ∅) [Http 5 [] [] (DELETE_api_tasks_id "1")] in
  let st2 := run st1 [Http 6 [] [] (POST_api_tasks ex_body)] in
  1 < tasks_id_seq (store st1)
  ∧ tasks (store st1) !! 1 = None
  ∧ tasks (store st2) !! 1 = None.
Proof.
  intros st1 st2.
  assert (1 < tasks_id_seq (store st1)) as Hlt by reflexivity.
  assert (tasks (store st1) !! 1 = None) as Hgone by reflexivity.
  split; [exact Hlt|]. split; [exact Hgone|].
  pose proof (rows_never_come_back 0 ∅
                [Http 5 [] [] (DELETE_api_tasks_id "1")]
                [Http 6 [] [] (POST_api_tasks ex_body)] 1 Hlt) as Hw.
  fold st1 in Hw. rewrite Hgone in Hw. exact Hw.
Defined.

Lemma created_ids_increase_witness :
  let out1 := handle (POST_api_tasks ex_body) ex_st in
  let out2 := handle (POST_api_tasks ex_body)
                (arrive 7 [] [] (run out1.2 [Http 6 [] [] (DELETE_api_tasks_id "9")])) in
  status (response_of out1) = 201 ∧ status (response_of out2) = 201
  ∧ ∃ k1 r1 k2 r2,
      body (response_of out1) = BData (Some (PTask (k1, r1))) None
      ∧ body (response_of out2) = BData (Some (PTask (k2, r2))) None
      ∧ k1 < k2.
Proof.
  intros out1 out2.
  assert (out1 = (inr (response_of out1), out1.2)) as Hrun1 by (vm_compute; reflexivity).
  assert (out2 = (inr (response_of out2), out2.2)) as Hrun2 by (vm_compute; reflexivity).
  assert (status (response_of out1) = 201) as Hs1 by (vm_compute; reflexivity).
  assert (status (response_of out2) = 201) as Hs2 by (vm_compute; reflexivity).
  split; [exact Hs1|]. split; [exact Hs2|].
  exact (created_ids_increase ex_st [Http 6 [] [] (DELETE_api_tasks_id "9")]
           7 [] [] ex_body ex_body _ _ _ _ Hrun1 Hs1 Hrun2 Hs2).
Defined.

Lemma updated_at_not_before_created_at_witness :
  let es := [Http 5 [] [] (POST_api_tasks ex_body);
             Http 6 [] [] (PUT_api_tasks_id "9" (only_completed (JBool true)))] in
  times_sorted 0 es
  ∧ ∃ r, tasks (store (run (boot 0 ∅) es)) !! 9 = Some r
         ∧ created_at r ≤ updated_at r.
Proof.
  intros es.
  assert (times_sorted 0 es) as Hsorted by (simpl; split_and!; done).
  split; [exact Hsorted|].
  destruct (tasks (store (run (boot 0 ∅) es)) !! 9) as [r|] eqn:Hl;
    [|vm_compute in Hl; discriminate].
  exists r. split; [reflexivity|].
  exact (updated_at_not_before_created_at 0 ∅ es 9 r Hsorted Hl).
Defined.

Lemma disconnected_client_not_called_witness :
  let st := arrive 5 [] [] (boot 0 ∅) in
  redisConnected st = false
  ∧ redis (handle GET_api_tasks st).2 = redis st
  ∧ redis_cmds (trace (handle GET_api_tasks st).2) = redis_cmds (trace st).
Proof.
  intros st. assert (redisConnected st = false) as Hoff by reflexivity.
  split; [exact Hoff|]. exact (disconnected_client_not_called GET_api_tasks st Hoff).
Defined.

Lemma get_unknown_id_404_witness :
  ∃ st',
    handle (GET_api_tasks_id "999") ex_st
    = (inr {| status := 404; body := BError "Task not found" |}, st')
    ∧ redis st' = redis ex_st.
Proof.
  assert (int4_in "999" = Some 999) as Hid by reflexivity.
  assert (tasks (store ex_st) !! 999 = None) as Hrow by reflexivity.
  assert (cache_read ("tasks:" +:+ "999") ex_st = None) as Hm by reflexivity.
  assert (head (pg_faults ex_st) ≠ Some true) as Hpg by discriminate.
  destruct (get_unknown_id_404 "999" 999 ex_st Hid Hrow Hm Hpg)
    as (st' & Hrun & _ & Hr & _).
  exists st'. split; [exact Hrun | exact Hr].
Defined.

Lemma trigger_sets_updated_at_witness :
  let values := [Some (JBool true); Some (JStr "1")] in
  let only := update_task 7 [SetParam ColCompleted 1] 2 values (init_store 0) in
  let sent := update_task 7 [SetParam ColCompleted 1; SetNow] 2 values
                (init_store 0) in
  put_update "1" (only_completed (JBool true))
  = QUpdate [SetParam ColCompleted 1; SetNow] 2 values
  ∧ ∃ r' s',
      only = inr ([(1, r')], s') ∧ sent = inr ([(1, r')], s')
      ∧ updated_at r' = 7 ∧ created_at r' = 0 ∧ completed r' = Some true
      ∧ tasks s' !! 1 = Some r'.
Proof.
  intros values only sent. split; [reflexivity|].
  set (r' := update_updated_at_column 7 (set_completed (Some true) ex_sample)).
  set (s' := {| tasks := <[1 := r']> (tasks (init_store 0)); tasks_id_seq := 9 |}).
  assert (only = inr ([(1, r')], s')) as Hu by reflexivity.
  assert (sent = inr ([(1, r')], s')) as Hu' by reflexivity.
  destruct (trigger_sets_updated_at 7 [SetParam ColCompleted 1] 2 values
              (init_store 0) 1 r' [] s' Hu) as (r & Hr & Hup & Hc & Hl & _).
  destruct (trigger_sets_updated_at 7 [SetParam ColCompleted 1; SetNow] 2 values
              (init_store 0) 1 r' [] s' Hu') as (_ & _ & _ & _ & _ & _).
  assert (r = ex_sample) as -> by (by injection Hr).
  exists r', s'. split; [exact Hu|]. split; [exact Hu'|]. split; [exact Hup|].
  split; [exact Hc|]. split; [reflexivity | exact Hl].
Defined.

Lemma created_task_is_listed_first_witness :
  let out := handle (POST_api_tasks ex_body) ex_st in
  let later := arrive 6 [] [] (set_redisConnected false out.2) in
  status (response_of out) = 201
  ∧ ∃ rest,
      (handle GET_api_tasks later).1
      = inr {| status := 200;
               body := BData (Some (PList ((9, ex_row) :: rest))) (Some false) |}.
Proof.
  intros out later.
  assert (out = (inr (response_of out), out.2)) as Hrun by (vm_compute; reflexivity).
  assert (status (response_of out) = 201) as Hst by (vm_compute; reflexivity).
  assert (∀ k r, tasks (store ex_st) !! k = Some r → created_at r < clock ex_st)
    as Hold.
  { intros k r Hl. destruct (boot_times 0 ∅ k r Hl) as [? ?]. simpl. lia. }
  assert (cache_read "tasks:all" later = None) as Hm by reflexivity.
  assert (head (@nil bool) ≠ Some true) as Hpg by discriminate.
  split; [exact Hst|].
  destruct (created_task_is_listed_first ex_body ex_st _ _ 6 [] [] false
              Hrun Hst Hold Hm Hpg) as (task & rest & Hbody & Hlist).
  assert (task = (9, ex_row)) as ->.
  { assert (body (response_of out) = BData (Some (PTask (9, ex_row))) None)
      as Hb by (vm_compute; reflexivity).
    rewrite Hb in Hbody. by injection Hbody. }
  exists rest. exact Hlist.
Defined.
